(** * Embedded languages via overloading: a shallow embedding

    The notebook defines two polymorphic functions, [equal] and [equals],
    that use only the Python operators [&], [|] and [1 - _], and then runs
    them unchanged on integers and on three successive definitions of a
    class [circuit] that overload these operators.

    Python objects are mutable references, so the three [circuit] classes
    are embedded over an explicit store of objects; a Python expression is
    a computation that threads the store and may raise an exception. *)

From Stdlib Require Import ZArith String Ascii DecimalString.
From stdpp Require Import base list strings.

(** ** Exceptions, results and the store-passing monad *)

(** The exceptions the modelled code can raise. [SystemError] is the
    outcome of dereferencing a location that names no object; Python
    references always name an object, so it is unreachable from
    well-formed states. *)
Inductive exn : Type :=
  | ValueError
  | TypeError
  | IndexError
  | NetworkXError
  | RecursionError
  | SystemError.

Inductive result (A : Type) : Type :=
  | Ok (a : A)
  | Raise (e : exn).
Arguments Ok {A} a.
Arguments Raise {A} e.

(** A computation over a store [S]: the store survives an exception. *)
Definition M (S A : Type) : Type := S -> result A * S.

Definition ret {S A} (a : A) : M S A := fun s => (Ok a, s).

Definition raise {S A} (e : exn) : M S A := fun s => (Raise e, s).

Definition bind {S A B} (m : M S A) (k : A -> M S B) : M S B :=
  fun s =>
    match m s with
    | (Ok a, s') => k a s'
    | (Raise e, s') => (Raise e, s')
    end.

Notation "x <- m ;; k" := (bind m (fun x => k))
  (at level 20, m at level 99, k at level 200, only parsing).
Notation "'do' m ;; k" := (bind m (fun _ => k))
  (at level 20, m at level 99, k at level 200, only parsing).

(** [[f(x) for x in xs]]: the elements are evaluated left to right. *)
Fixpoint mapM {S A B} (f : A -> M S B) (xs : list A) : M S (list B) :=
  match xs with
  | [] => ret []
  | x :: xs' => y <- f x ;; ys <- mapM f xs' ;; ret (y :: ys)
  end.

(** The loop of [functools.reduce] once its accumulator is set. *)
Fixpoint foldM {S A B} (f : A -> B -> M S A) (a : A) (xs : list B) : M S A :=
  match xs with
  | [] => ret a
  | x :: xs' => a' <- f a x ;; foldM f a' xs'
  end.

(** [functools.reduce(function, sequence)] without an initial value: the
    first element starts the accumulator, and an empty sequence raises
    [TypeError]. *)
Definition reduce {S A} (f : A -> A -> M S A) (es : list A) : M S A :=
  match es with
  | [] => raise TypeError
  | e :: es' => foldM f e es'
  end.

(** Python's [zip]: stops at the end of the shorter list. *)
Fixpoint zip {A B} (xs : list A) (ys : list B) : list (A * B) :=
  match xs, ys with
  | x :: xs', y :: ys' => (x, y) :: zip xs' ys'
  | _, _ => []
  end.

(** ** The store of objects *)

Definition loc : Type := nat.

Section store.
Context {O : Type}.

(** Creating an object: it gets a location no earlier object has. *)
Definition alloc (o : O) : M (list O) loc :=
  fun h => (Ok (length h), h ++ [o]).

Definition load (l : loc) : M (list O) O :=
  fun h =>
    match h !! l with
    | Some o => (Ok o, h)
    | None => (Raise SystemError, h)
    end.

(** In-place mutation of the object at [l]. *)
Definition modify (l : loc) (f : O -> O) : M (list O) unit :=
  fun h =>
    match h !! l with
    | Some o => (Ok tt, <[l := f o]> h)
    | None => (Raise SystemError, h)
    end.
End store.

(** ** The operators the notebook overloads *)

(** The values that can stand on the left of [-] in [v - c] and reach
    [circuit.__rsub__]: integers, booleans, floats (mantissa and binary
    exponent), strings and [None]. *)
Inductive pyval : Type :=
  | PyInt (z : Z)
  | PyBool (b : bool)
  | PyFloat (m e : Z)
  | PyStr (s : string)
  | PyNone.

(** [isinstance(v, int)]: [bool] is a subclass of [int]. *)
Definition isinstance_int (v : pyval) : bool :=
  match v with
  | PyInt _ | PyBool _ => true
  | _ => false
  end.

(** [v != 1] for [v] an instance of [int]; [True] equals [1]. *)
Definition ne_one (v : pyval) : bool :=
  match v with
  | PyInt z => negb (z =? 1)%Z
  | PyBool b => negb b
  | _ => true
  end.

(** The integer an instance of [int] stands for. *)
Definition int_value (v : pyval) : option Z :=
  match v with
  | PyInt z => Some z
  | PyBool b => Some (if b then 1 else 0)%Z
  | _ => None
  end.

(** What [equal] and [equals] need of their arguments: [x & y], [x | y]
    and [1 - x], each an expression that may allocate and may raise. *)
Class Overloaded (S V : Type) : Type := {
  and_ : V -> V -> M S V;
  or_ : V -> V -> M S V;
  one_minus : V -> M S V
}.

Section polymorphic.
Context {S V : Type} `{!Overloaded S V}.

(** [def equal(x, y): return (x & y) | ((1 - x) & (1 - y))] *)
Definition equal (x y : V) : M S V :=
  a <- and_ x y ;;
  nx <- one_minus x ;;
  ny <- one_minus y ;;
  b <- and_ nx ny ;;
  or_ a b.

(** The second definition of [equals], which replaces the first:
    [es = [equal(x, y) for (x, y) in zip(xs, ys)]] and then
    [reduce((lambda e0, e1: e0 & e1), es)]. *)
Definition equals (xs ys : list V) : M S V :=
  es <- mapM (fun p => equal (fst p) (snd p)) (zip xs ys) ;;
  reduce (fun e0 e1 => and_ e0 e1) es.
End polymorphic.

(** ** Python integers *)

(** Python integers are unbounded, and [&] and [|] act on the two's
    complement representation, as [Z.land] and [Z.lor] do. *)
#[global] Instance int_ops : Overloaded unit Z := {
  and_ x y := ret (Z.land x y);
  or_ x y := ret (Z.lor x y);
  one_minus x := ret (1 - x)%Z
}.

Definition is_bit (x : Z) : Prop := x = 0%Z \/ x = 1%Z.

(** ** Texts *)

(** [", ".join(parts)] and its like. *)
Fixpoint join (sep : string) (parts : list string) : string :=
  match parts with
  | [] => ""
  | [p] => p
  | p :: rest => p +:+ sep +:+ join sep rest
  end.

Definition dquote : string := String "034"%char EmptyString.

(** The JSON encoding of a string: quoted, with the quote and the
    backslash escaped. Control and non-ASCII characters, which no key of
    the notebook contains, are left as they are. *)
Fixpoint escape (s : string) : string :=
  match s with
  | EmptyString => EmptyString
  | String c s' =>
      if (c =? "034")%char || (c =? "\")%char
      then String "\" (String c (escape s'))
      else String c (escape s')
  end.

Definition encode_str (s : string) : string := dquote +:+ escape s +:+ dquote.

(** [str(z)] for an integer. *)
Definition str_int (z : Z) : string := NilZero.string_of_int (Z.to_int z).

(** Writes a text with apostrophes in the place of its quotes. *)
Fixpoint requote (s : string) : string :=
  match s with
  | EmptyString => EmptyString
  | String c s' => String (if (c =? "'")%char then "034"%char else c) (requote s')
  end.

(** ** The class [vector] *)

Module Vector.

Section vector.
Context {A : Type} `{EqDecision A}.

(** [==] on tuples: the same length and equal items, for items of a
    type on which [==] decides equality, as on integers and strings. *)
Fixpoint tuple_eqb (xs ys : list A) : bool :=
  match xs, ys with
  | [], [] => true
  | x :: xs', y :: ys' => bool_decide (x = y) && tuple_eqb xs' ys'
  | _, _ => false
  end.

Record vector : Type := { coordinates : list A }.

(** [vector(c1, ..., cn)]: the arguments become the tuple [coordinates]. *)
Definition __init__ (coordinates : list A) : vector :=
  {| coordinates := coordinates |}.

Definition __eq__ (self other : vector) : bool :=
  tuple_eqb (coordinates self) (coordinates other).

End vector.
Arguments vector A : clear implicits.

End Vector.

(** ** The interpreter's bound on recursion *)

(** CPython counts the calls in progress and raises [RecursionError]
    when one more would take them past [sys.getrecursionlimit()]. A
    descent through nested objects takes the same number of calls at
    every level of nesting: for [__repr__] of the first variant the
    method, [str] of the list and [repr] of the item, three in
    CPython 3.11; for [json.dumps] on dictionaries with an item, the
    dictionary and its list, two. The notebook never sets the limit;
    how many calls are in progress where a descent starts depends on
    where it is called from. *)
Record interpreter : Type := {
  recursion_limit : nat;
  in_progress : nat;
  repr_calls : nat;
  dumps_calls : nat
}.

(** The levels of nesting a descent can enter when each takes
    [per_level] calls: entering a level needs all its calls. *)
Definition levels (i : interpreter) (per_level : nat) : nat :=
  (recursion_limit i - in_progress i) / per_level.

(** ** First variant: operation-tagged objects *)

Module Tagged.

(** The [args] attribute: the constructor stores what it is given, an
    integer as in [circuit("bit", 0)] or a list of references to
    circuits as in [circuit('or', [self, other])]. *)
Inductive args_t : Type :=
  | ArgsInt (z : Z)
  | ArgsList (cs : list loc).

Record circuit : Type := { op : string; args : args_t }.

Definition heap : Type := list circuit.

(** [circuit(op, args)], both arguments optional:
    [self.op = op] and [self.args = [] if args is None else args]. *)
Definition __init__ (op : option string) (args : option args_t) : M heap loc :=
  alloc {| op := default "bit" op; args := default (ArgsList []) args |}.

Definition __or__ (self other : loc) : M heap loc :=
  __init__ (Some "or") (Some (ArgsList [self; other])).

Definition __and__ (self other : loc) : M heap loc :=
  __init__ (Some "and") (Some (ArgsList [self; other])).

Definition __rsub__ (self : loc) (other : pyval) : M heap loc :=
  if negb (isinstance_int other) || ne_one other
  then raise ValueError
  else __init__ (Some "not") (Some (ArgsList [self])).

(** ['circuit("' + self.op + '", ' + str(self.args) + ')'], where [str]
    of a list calls [__repr__] on its items. [n] is the number of levels
    the interpreter can still enter: with none left the call raises
    [RecursionError]. [path] holds the circuits whose list is being
    displayed: [str] of a list that is being displayed is [[...]]. Every
    circuit has a list of its own, the one its constructor was given. *)
Fixpoint repr_fuel (n : nat) (path : list loc) (self : loc) : M heap string :=
  match n with
  | O => raise RecursionError
  | S n' =>
      c <- load self ;;
      sargs <- match args c with
               | ArgsInt z => ret (str_int z)
               | ArgsList cs =>
                   if bool_decide (self ∈ path) then ret "[...]"
                   else
                     ss <- mapM (repr_fuel n' (self :: path)) cs ;;
                     ret ("[" +:+ join ", " ss +:+ "]")
               end ;;
      ret ("circuit(" +:+ dquote +:+ op c +:+ dquote +:+ ", " +:+ sargs +:+ ")")
  end.

(** [repr(c)] under the interpreter [i]. *)
Definition __repr__ (i : interpreter) (self : loc) : M heap string :=
  repr_fuel (levels i (repr_calls i)) [] self.

(** [str(c)]: [__str__] is one more call in progress, and it calls
    [__repr__]. *)
Definition __str__ (i : interpreter) (self : loc) : M heap string :=
  __repr__ {| recursion_limit := recursion_limit i;
              in_progress := S (in_progress i);
              repr_calls := repr_calls i;
              dumps_calls := dumps_calls i |} self.

#[global] Instance ops : Overloaded heap loc := {
  and_ := __and__;
  or_ := __or__;
  one_minus c := __rsub__ c (PyInt 1)
}.

End Tagged.

(** ** Second variant: circuits that are dictionaries *)

Module Dict.

(** The values stored in the dictionaries of the notebook: an integer
    as in [{"bit": 0}], or a list of references to circuits. *)
Inductive value : Type :=
  | VInt (z : Z)
  | VList (cs : list loc).

(** A [dict] keeps its items in insertion order, the order in which
    [json.dumps] emits them: an association list. *)
Definition circuit : Type := list (string * value).

Definition heap : Type := list circuit.

(** [circuit(d)] is [dict.__init__]: a new dictionary with the items
    of [d]. *)
Definition __init__ (d : list (string * value)) : M heap loc :=
  alloc d.

Definition __or__ (self other : loc) : M heap loc :=
  __init__ [("or", VList [self; other])].

Definition __and__ (self other : loc) : M heap loc :=
  __init__ [("and", VList [self; other])].

Definition __rsub__ (self : loc) (other : pyval) : M heap loc :=
  if negb (isinstance_int other) || ne_one other
  then raise ValueError
  else __init__ [("not", VList [self])].

#[global] Instance ops : Overloaded heap loc := {
  and_ := __and__;
  or_ := __or__;
  one_minus c := __rsub__ c (PyInt 1)
}.

End Dict.

(** *** [json.dumps] on dictionary circuits *)

Module Json.
Import Dict.

(** The encoder descends through dictionaries and lists with the
    default separators [", "] and [": "]. [n] is the number of levels
    the interpreter can still enter: with none left the encoder raises
    [RecursionError]. [path] holds the dictionaries being encoded, the
    encoder's markers: meeting one of them again is a circular
    reference, a [ValueError]. *)
Fixpoint dumps_fuel (n : nat) (path : list loc) (l : loc) : M heap string :=
  match n with
  | O => raise RecursionError
  | S n' =>
      d <- load l ;;
      if bool_decide (l ∈ path) then raise ValueError
      else
        items <- mapM (fun kv =>
                   sv <- match snd kv with
                         | VInt z => ret (str_int z)
                         | VList cs =>
                             ss <- mapM (dumps_fuel n' (l :: path)) cs ;;
                             ret ("[" +:+ join ", " ss +:+ "]")
                         end ;;
                   ret (encode_str (fst kv) +:+ ": " +:+ sv)) d ;;
        ret ("{" +:+ join ", " items +:+ "}")
  end.

(** [json.dumps(c)] under the interpreter [i]. *)
Definition dumps (i : interpreter) (l : loc) : M heap string :=
  dumps_fuel (levels i (dumps_calls i)) [] l.

End Json.

(** ** Third variant: circuits that are NetworkX graphs *)

Module Graph.

(** A [networkx.Graph] whose nodes are strings: the nodes in insertion
    order, as [list(g.nodes)] gives them, and the undirected edges,
    each kept once. No node, edge or graph attribute is ever set. *)
Record circuit : Type := { nodes : list string; edges : list (string * string) }.

Definition heap : Type := list circuit.

Definition empty : circuit := {| nodes := []; edges := [] |}.

(** [Graph.add_node]: a node already present is not added again. *)
Definition add_node (g : circuit) (n : string) : circuit :=
  if bool_decide (n ∈ nodes g) then g
  else {| nodes := nodes g ++ [n]; edges := edges g |}.

Definition has_edge (g : circuit) (u v : string) : bool :=
  bool_decide ((u, v) ∈ edges g) || bool_decide ((v, u) ∈ edges g).

(** [Graph.add_edge]: the end points become nodes if they are not, and
    an edge already present, in either direction, is not added again. *)
Definition add_edge (g : circuit) (e : string * string) : circuit :=
  let g' := add_node (add_node g (fst e)) (snd e) in
  if has_edge g' (fst e) (snd e) then g'
  else {| nodes := nodes g'; edges := edges g' ++ [e] |}.

Definition add_nodes_from (g : loc) (ns : list string) : M heap unit :=
  modify g (fun o => foldl add_node o ns).

Definition add_edges_from (g : loc) (es : list (string * string)) : M heap unit :=
  modify g (fun o => foldl add_edge o es).

(** [circuit(arg)]: [Graph.__init__(self)], then, unless [arg] is
    [None], [self.add_nodes_from([str(arg)])]. *)
Definition __init__ (arg : option string) : M heap loc :=
  self <- alloc empty ;;
  match arg with
  | Some a => do add_nodes_from self [a] ;; ret self
  | None => ret self
  end.

(** [networkx.relabel_nodes(G, mapping)] with its default [copy=True]:
    a new graph of the class of [G]. *)
Definition relabel_nodes (G : loc) (mapping : string -> string) : M heap loc :=
  g <- load G ;;
  H <- __init__ None ;;
  do add_nodes_from H (map mapping (nodes g)) ;;
  do add_edges_from H (map (fun e => (mapping (fst e), mapping (snd e))) (edges g)) ;;
  ret H.

(** The local function [add_prefix] of [networkx.union]. *)
Definition add_prefix (graph : loc) (prefix : option string) : M heap loc :=
  match prefix with
  | None => ret graph
  | Some p => relabel_nodes graph (fun x => p +:+ x)
  end.

(** [networkx.union(G, H, rename)]: the result is a new graph of the
    class of [G]; the node sets, once renamed, must be disjoint. *)
Definition union (G H : loc) (rename : option string * option string) : M heap loc :=
  R <- __init__ None ;;
  G' <- add_prefix G (fst rename) ;;
  H' <- add_prefix H (snd rename) ;;
  g <- load G' ;;
  h <- load H' ;;
  if existsb (fun n => bool_decide (n ∈ nodes h)) (nodes g)
  then raise NetworkXError
  else
    do add_nodes_from R (nodes g) ;;
    do add_nodes_from R (nodes h) ;;
    do add_edges_from R (edges g) ;;
    do add_edges_from R (edges h) ;;
    ret R.

(** [xs[i]] *)
Definition index {A} (xs : list A) (i : nat) : M heap A :=
  match xs !! i with
  | Some x => ret x
  | None => raise IndexError
  end.

(** The body of a binary operator for the output label [label]:
    [__or__] and [__and__] below are this body at their labels. *)
Definition binary (label : string) (self other : loc) : M heap loc :=
  top <- __init__ (Some label) ;;
  both <- union self other (Some "l-", Some "r-") ;;
  c <- union top both (None, None) ;;
  s <- load self ;;
  s0 <- index (nodes s) 0 ;;
  o <- load other ;;
  o0 <- index (nodes o) 0 ;;
  do add_edges_from c [(label, "l-" +:+ s0); (label, "r-" +:+ o0)] ;;
  ret c.

Definition __or__ (self other : loc) : M heap loc :=
  top <- __init__ (Some "$\vee$") ;;
  both <- union self other (Some "l-", Some "r-") ;;
  c <- union top both (None, None) ;;
  s <- load self ;;
  s0 <- index (nodes s) 0 ;;
  o <- load other ;;
  o0 <- index (nodes o) 0 ;;
  do add_edges_from c [("$\vee$", "l-" +:+ s0); ("$\vee$", "r-" +:+ o0)] ;;
  ret c.

Definition __and__ (self other : loc) : M heap loc :=
  top <- __init__ (Some "$\wedge$") ;;
  both <- union self other (Some "l-", Some "r-") ;;
  c <- union top both (None, None) ;;
  s <- load self ;;
  s0 <- index (nodes s) 0 ;;
  o <- load other ;;
  o0 <- index (nodes o) 0 ;;
  do add_edges_from c [("$\wedge$", "l-" +:+ s0); ("$\wedge$", "r-" +:+ o0)] ;;
  ret c.

Definition __rsub__ (self : loc) (other : pyval) : M heap loc :=
  if negb (isinstance_int other) || ne_one other
  then raise ValueError
  else
    top <- __init__ (Some "$\neg$") ;;
    c <- union top self (Some "", Some "n-") ;;
    s <- load self ;;
    s0 <- index (nodes s) 0 ;;
    do add_edges_from c [("$\neg$", "n-" +:+ s0)] ;;
    ret c.

#[global] Instance ops : Overloaded heap loc := {
  and_ := __and__;
  or_ := __or__;
  one_minus c := __rsub__ c (PyInt 1)
}.

End Graph.

(** ** The notebook's runs *)

Module Examples.

(** The interpreter of the runs: CPython with the recursion limit it
    ships with, 1000 calls, and the calls per level of CPython 3.11. The
    calls the kernel has in progress when a cell runs are not in the
    notebook; the runs below nest five levels deep, and [displays_at]
    and [prints_at] are the runs under any interpreter. *)
Definition kernel : interpreter :=
  {| recursion_limit := 1000; in_progress := 0; repr_calls := 3; dumps_calls := 2 |}.

Definition displays_at (i : interpreter) : M Tagged.heap string :=
  c0 <- Tagged.__init__ (Some "bit") (Some (Tagged.ArgsInt 0)) ;;
  c1 <- Tagged.__init__ (Some "bit") (Some (Tagged.ArgsInt 1)) ;;
  c <- equals [c0; c1] [c0; c1] ;;
  Tagged.__repr__ i c.

Definition prints_at (i : interpreter) : M Dict.heap string :=
  c0 <- Dict.__init__ [("bit", Dict.VInt 0)] ;;
  c1 <- Dict.__init__ [("bit", Dict.VInt 1)] ;;
  c <- equals [c0; c1] [c0; c1] ;;
  Json.dumps i c.

(** What the notebook displays for [equals([c0, c1], [c0, c1])] on the
    first variant. *)
Definition tagged_equals_repr : M Tagged.heap string :=
  c0 <- Tagged.__init__ (Some "bit") (Some (Tagged.ArgsInt 0)) ;;
  c1 <- Tagged.__init__ (Some "bit") (Some (Tagged.ArgsInt 1)) ;;
  c <- equals [c0; c1] [c0; c1] ;;
  Tagged.__repr__ kernel c.

Definition displayed_repr : string :=
  requote "circuit('and', [circuit('or', [circuit('and', [circuit('bit', 0), circuit('bit', 0)]), circuit('and', [circuit('not', [circuit('bit', 0)]), circuit('not', [circuit('bit', 0)])])]), circuit('or', [circuit('and', [circuit('bit', 1), circuit('bit', 1)]), circuit('and', [circuit('not', [circuit('bit', 1)]), circuit('not', [circuit('bit', 1)])])])])".

(** [json.dumps(equals([c0, c1], [c0, c1]))] on the second variant. *)
Definition dict_equals_json : M Dict.heap string :=
  c0 <- Dict.__init__ [("bit", Dict.VInt 0)] ;;
  c1 <- Dict.__init__ [("bit", Dict.VInt 1)] ;;
  c <- equals [c0; c1] [c0; c1] ;;
  Json.dumps kernel c.

(** The circuit [c] of the third variant. *)
Definition graph_equals : M Graph.heap Graph.circuit :=
  x0 <- Graph.__init__ (Some "$x_0$") ;;
  x1 <- Graph.__init__ (Some "$x_1$") ;;
  y0 <- Graph.__init__ (Some "$y_0$") ;;
  y1 <- Graph.__init__ (Some "$y_1$") ;;
  c <- equals [x0; x1] [y0; y1] ;;
  load c.

(** The line the notebook prints for [dict_equals_json]. *)
Definition printed_json : string :=
  requote "{'and': [{'or': [{'and': [{'bit': 0}, {'bit': 0}]}, {'and': [{'not': [{'bit': 0}]}, {'not': [{'bit': 0}]}]}]}, {'or': [{'and': [{'bit': 1}, {'bit': 1}]}, {'and': [{'not': [{'bit': 1}]}, {'not': [{'bit': 1}]}]}]}]}".

End Examples.

(** ** Node names as paths *)

(** [s.split(sep)] for a separator of one character. *)
Fixpoint split (sep : ascii) (s : string) : list string :=
  match s with
  | EmptyString => [EmptyString]
  | String c s' =>
      if (c =? sep)%char then EmptyString :: split sep s'
      else match split sep s' with
           | [] => [String c EmptyString]
           | w :: ws => String c w :: ws
           end
  end.

Module Paths.
Import Graph.

(** A node name [s1-...-sk-label] read as the steps [s1 ... sk]
    followed by the label, as [position] and the labels of the drawing
    read it with [n.split('-')]. *)
Definition steps (n : string) : list string := removelast (split "-" n).

Definition label (n : string) : string := List.last (split "-" n) "".

(** The node of [g] reached by the steps [ss]. *)
Definition node_at (g : circuit) (ss : list string) : option string :=
  List.find (fun m => bool_decide (steps m = ss)) (nodes g).

(** The first [i] steps of [ss] and the first [i + 1] lead to two
    nodes joined by an edge. *)
Definition edge_after (g : circuit) (ss : list string) (i : nat) : bool :=
  match node_at g (take i ss), node_at g (take (S i) ss) with
  | Some u, Some v => has_edge g u v
  | _, _ => false
  end.

(** The steps in the name of [n] are among [l], [r] and [n], and
    followed from the output node of [g], its first node, they walk
    along edges of [g] and end at [n]. *)
Definition names_its_path (g : circuit) (n : string) : bool :=
  forallb (fun s => bool_decide (s ∈ ["l"; "r"; "n"])) (steps n)
  && bool_decide (node_at g [] = head (nodes g))
  && forallb (edge_after g (steps n)) (seq 0 (length (steps n)))
  && bool_decide (node_at g (steps n) = Some n).

(** A circuit as a tree of labelled gates. *)
Inductive tree : Type :=
  | Leaf (a : string)
  | Unary (a : string) (t : tree)
  | Binary (a : string) (l r : tree).

(** The places of a tree, the output first: the steps that lead to a
    place, [l] and [r] into the operands of a binary gate and [n] into
    the operand of a negation, with the label found there. *)
Fixpoint places (t : tree) : list (list string * string) :=
  match t with
  | Leaf a => [([], a)]
  | Unary a t1 => ([], a) :: map (fun p => ("n" :: p.1, p.2)) (places t1)
  | Binary a l r =>
      ([], a) :: map (fun p => ("l" :: p.1, p.2)) (places l)
              ++ map (fun p => ("r" :: p.1, p.2)) (places r)
  end.

(** The name of a place: its steps, each followed by a dash, then its
    label. *)
Definition name (p : list string * string) : string :=
  foldr (fun s rest => s +:+ "-" +:+ rest) p.2 p.1.

Definition top (t : tree) : string :=
  match t with
  | Leaf a | Unary a _ | Binary a _ _ => a
  end.

(** The wires of a tree: each gate with each of its operands, both
    under the names of their places. *)
Fixpoint wires (t : tree) : list (string * string) :=
  match t with
  | Leaf _ => []
  | Unary a t1 =>
      map (fun e => ("n-" +:+ e.1, "n-" +:+ e.2)) (wires t1)
      ++ [(a, "n-" +:+ top t1)]
  | Binary a l r =>
      map (fun e => ("l-" +:+ e.1, "l-" +:+ e.2)) (wires l)
      ++ map (fun e => ("r-" +:+ e.1, "r-" +:+ e.2)) (wires r)
      ++ [(a, "l-" +:+ top l); (a, "r-" +:+ top r)]
  end.

(** The gates of a tree carry the labels of the three operators. *)
Fixpoint gates (t : tree) : Prop :=
  match t with
  | Leaf _ => True
  | Unary a t1 => a = "$\neg$" /\ gates t1
  | Binary a l r => (a = "$\vee$" \/ a = "$\wedge$") /\ gates l /\ gates r
  end.

(** Building a tree with the operators of the third variant, operands
    first and from left to right. *)
Fixpoint build (t : tree) : M heap loc :=
  match t with
  | Leaf a => __init__ (Some a)
  | Unary _ t1 => c <- build t1 ;; __rsub__ c (PyInt 1)
  | Binary a l r =>
      c <- build l ;;
      d <- build r ;;
      if bool_decide (a = "$\vee$") then __or__ c d else __and__ c d
  end.

(** The circuit for the equality of two bits, [(x & y) | (~x & ~y)]. *)
Definition equal_tree (x y : string) : tree :=
  Binary "$\vee$"
    (Binary "$\wedge$" (Leaf x) (Leaf y))
    (Binary "$\wedge$" (Unary "$\neg$" (Leaf x)) (Unary "$\neg$" (Leaf y))).

(** The circuit for the equality of two vectors of two bits. *)
Definition equals_tree : tree :=
  Binary "$\wedge$" (equal_tree "$x_0$" "$y_0$") (equal_tree "$x_1$" "$y_1$").

End Paths.

(** ** The shape of the objects of the first variant *)

Module Shape.
Import Tagged.

(** The object at location [i]: an operation among the four, with
    operands that are circuits made before it. *)
Definition well_shaped (i : loc) (c : circuit) : bool :=
  match args c with
  | ArgsInt b => bool_decide (op c = "bit") && ((b =? 0)%Z || (b =? 1)%Z)
  | ArgsList [] => bool_decide (op c = "bit")
  | ArgsList [a] => bool_decide (op c = "not") && bool_decide (a < i)
  | ArgsList [a; b] =>
      (bool_decide (op c = "or") || bool_decide (op c = "and"))
      && bool_decide (a < i) && bool_decide (b < i)
  | ArgsList _ => false
  end.

Definition heap_ok (h : heap) : Prop :=
  forall i c, h !! i = Some c -> well_shaped i c = true.

(** One construction: a bit constant, or an operator applied to
    circuits that exist. *)
Inductive step : heap -> heap -> Prop :=
  | step_bit h b r h' :
      is_bit b ->
      __init__ (Some "bit") (Some (ArgsInt b)) h = (Ok r, h') ->
      step h h'
  | step_default h r h' :
      __init__ None None h = (Ok r, h') ->
      step h h'
  | step_or h c d r h' :
      c < length h -> d < length h ->
      __or__ c d h = (Ok r, h') ->
      step h h'
  | step_and h c d r h' :
      c < length h -> d < length h ->
      __and__ c d h = (Ok r, h') ->
      step h h'
  | step_not h c r h' :
      c < length h ->
      __rsub__ c (PyInt 1) h = (Ok r, h') ->
      step h h'.

(** The stores a program can reach from the empty one. *)
Inductive built : heap -> Prop :=
  | built_nil : built []
  | built_step h h' : built h -> step h h' -> built h'.

(** The value at [r] is an operation-tagged tree: a [bit] with a bit or
    with the empty list, an [or] or an [and] of two trees, or a [not] of
    one. *)
Inductive tree_at (h : heap) : loc -> Prop :=
  | tree_bit r b :
      h !! r = Some {| op := "bit"; args := ArgsInt b |} -> is_bit b ->
      tree_at h r
  | tree_default r :
      h !! r = Some {| op := "bit"; args := ArgsList [] |} ->
      tree_at h r
  | tree_or r a b :
      h !! r = Some {| op := "or"; args := ArgsList [a; b] |} ->
      tree_at h a -> tree_at h b ->
      tree_at h r
  | tree_and r a b :
      h !! r = Some {| op := "and"; args := ArgsList [a; b] |} ->
      tree_at h a -> tree_at h b ->
      tree_at h r
  | tree_not r a :
      h !! r = Some {| op := "not"; args := ArgsList [a] |} ->
      tree_at h a ->
      tree_at h r.

(** The expression [m] raises nothing, and its value is the object
    [c], a tree, in a store that is again one a program can reach. *)
Definition value_is (m : M heap loc) (h : heap) (c : circuit) : Prop :=
  exists r h',
    m h = (Ok r, h') /\ h' !! r = Some c /\ tree_at h' r /\ built h'.

End Shape.

(** ** Expressions over the three operators *)

(** An expression built with [|], [&] and [1 - _] from bit constants and
    from variables that hold circuits built before. *)
Inductive expr : Type :=
  | Bit (b : Z)
  | Var (c : loc)
  | Or (e1 e2 : expr)
  | And (e1 e2 : expr)
  | Not (e : expr).

Section eval.
Context {S : Type} `{!Overloaded S loc}.
Variable bit : Z -> M S loc.

(** Python evaluates the operands left to right, then applies the
    operator. *)
Fixpoint eval (e : expr) : M S loc :=
  match e with
  | Bit b => bit b
  | Var c => ret c
  | Or e1 e2 => a <- eval e1 ;; b <- eval e2 ;; or_ a b
  | And e1 e2 => a <- eval e1 ;; b <- eval e2 ;; and_ a b
  | Not e1 => a <- eval e1 ;; one_minus a
  end.
End eval.

Module Homomorphism.

(** The mapping of the claim: [circuit(op, args)] goes to the
    dictionary with the one entry [{op: args}]. *)
Definition to_dict (c : Tagged.circuit) : Dict.circuit :=
  [(Tagged.op c,
    match Tagged.args c with
    | Tagged.ArgsInt z => Dict.VInt z
    | Tagged.ArgsList cs => Dict.VList cs
    end)].

Definition eval_tagged : expr -> M Tagged.heap loc :=
  eval (fun b => Tagged.__init__ (Some "bit") (Some (Tagged.ArgsInt b))).

Definition eval_dict : expr -> M Dict.heap loc :=
  eval (fun b => Dict.__init__ [("bit", Dict.VInt b)]).

End Homomorphism.

(** ** What an operator leaves in place, and graphs as NetworkX keeps them *)

(** The result of an expression is a new object: it has a location that
    named nothing before. *)
Definition returns_new {O} (h : list O) (out : result loc * list O) : Prop :=
  exists r, out.1 = Ok r /\ h !! r = None /\ is_Some (out.2 !! r).

(** The object at [l] is the same before and after. *)
Definition unchanged {O} (h : list O) (out : result loc * list O) (l : loc) : Prop :=
  out.2 !! l = h !! l.

(** Every object of the store before is the same after. *)
Definition keeps {O} (h : list O) (out : result loc * list O) : Prop :=
  forall l, l < length h -> unchanged h out l.

Module GraphWf.
Import Graph.

(** No edge is kept twice, in either direction. *)
Definition simple (es : list (string * string)) : Prop :=
  NoDup es /\ Forall (fun e => (e.2, e.1) ∈ es -> e.1 = e.2) es.

(** The state of a [Graph]: each node once, each edge between nodes
    and once. *)
Definition wf (g : circuit) : Prop :=
  NoDup (nodes g)
  /\ (forall e, e ∈ edges g -> e.1 ∈ nodes g /\ e.2 ∈ nodes g)
  /\ simple (edges g).

(** The graphs the library functions build, as functions of the
    graphs they read. *)

(** [circuit(label)] *)
Definition leaf (label : string) : circuit := foldl add_node empty [label].

(** The copy [relabel_nodes] makes. *)
Definition relabel (f : string -> string) (g : circuit) : circuit :=
  foldl add_edge
    (foldl add_node empty (map f (nodes g)))
    (map (fun e => (f (fst e), f (snd e))) (edges g)).

(** The graph [union] fills: nodes of both, then edges of both. *)
Definition merge (g k : circuit) : circuit :=
  foldl add_edge
    (foldl add_edge (foldl add_node (foldl add_node empty (nodes g)) (nodes k)) (edges g))
    (edges k).

(** The test of [union] for a common node. *)
Definition meets (g k : circuit) : bool :=
  existsb (fun n => bool_decide (n ∈ nodes k)) (nodes g).

(** Every node and every end point of [g] satisfies [P]. *)
Definition covered (P : string -> Prop) (g : circuit) : Prop :=
  Forall P (nodes g) /\ Forall (fun e => P e.1 /\ P e.2) (edges g).

(** The graph of [1 - c] for the graph [g] of [c] with output node
    [root]. *)
Definition negation (g : circuit) (root : string) : circuit :=
  {| nodes := "$\neg$" :: map (fun x => "n-" +:+ x) (nodes g);
     edges := map (fun e => ("n-" +:+ e.1, "n-" +:+ e.2)) (edges g)
              ++ [("$\neg$", "n-" +:+ root)] |}.

(** The graph of [c | d] or [c & d], by its [label], for the graphs [g]
    and [k] of [c] and [d] with output nodes [rg] and [rk]. *)
Definition junction (label : string) (g k : circuit) (rg rk : string) : circuit :=
  {| nodes := label :: map (fun x => "l-" +:+ x) (nodes g)
                    ++ map (fun x => "r-" +:+ x) (nodes k);
     edges := map (fun e => ("l-" +:+ e.1, "l-" +:+ e.2)) (edges g)
              ++ map (fun e => ("r-" +:+ e.1, "r-" +:+ e.2)) (edges k)
              ++ [(label, "l-" +:+ rg); (label, "r-" +:+ rk)] |}.

(** The graph the operators build for a tree of gates. *)
Fixpoint graph_of (t : Paths.tree) : circuit :=
  match t with
  | Paths.Leaf a => {| nodes := [a]; edges := [] |}
  | Paths.Unary _ t1 => negation (graph_of t1) (Paths.top t1)
  | Paths.Binary a l r =>
      junction a (graph_of l) (graph_of r) (Paths.top l) (Paths.top r)
  end.

End GraphWf.

(** ** The first definition of [equals]: a loop *)

(** [xs[i]] on a list: an index past the end raises [IndexError]. *)
Definition getitem {S A} (xs : list A) (i : nat) : M S A :=
  match xs !! i with
  | Some x => ret x
  | None => raise IndexError
  end.

(** The variable [z] of the loop: the integer it starts as, or a value
    of the type of the operands. *)
Inductive acc (V : Type) : Type :=
  | Lit (z : Z)
  | Val (v : V).
Arguments Lit {V} z.
Arguments Val {V} v.

(** [n & e] with an integer [n] on the left. Python asks
    [int.__and__(n, e)] and, when [e] is no integer, the method
    [__rand__] of the class of [e]; without one it raises [TypeError]. *)
Class IntAnd (S V : Type) : Type := {
  int_and : Z -> V -> M S V
}.

#[global] Instance int_int_and : IntAnd unit Z := {
  int_and n e := ret (Z.land n e)
}.

(** None of the three classes [circuit] defines [__rand__]. *)
#[global] Instance tagged_int_and : IntAnd Tagged.heap loc := {
  int_and _ _ := raise TypeError
}.

#[global] Instance dict_int_and : IntAnd Dict.heap loc := {
  int_and _ _ := raise TypeError
}.

#[global] Instance graph_int_and : IntAnd Graph.heap loc := {
  int_and _ _ := raise TypeError
}.

Section loop.
Context {S V : Type} `{!Overloaded S V} `{!IntAnd S V}.

(** [z & e] *)
Definition acc_and (z : acc V) (e : V) : M S (acc V) :=
  match z with
  | Lit n => v <- int_and n e ;; ret (Val v)
  | Val v => v' <- and_ v e ;; ret (Val v')
  end.

(** One turn of the loop: [z = z & equal(xs[i], ys[i])]. *)
Definition loop_body (xs ys : list V) (z : acc V) (i : nat) : M S (acc V) :=
  x <- getitem xs i ;;
  y <- getitem ys i ;;
  e <- equal x y ;;
  acc_and z e.

(** One turn of the loop on the pair of items it reads. *)
Definition turn (z : acc V) (p : V * V) : M S (acc V) :=
  e <- equal p.1 p.2 ;; acc_and z e.

(** The first definition of [equals], which the second replaces:
    [z = 1], then [for i in range(len(xs))] the turn above, then
    [return z]. *)
Definition equals_loop (xs ys : list V) : M S (acc V) :=
  foldM (loop_body xs ys) (Lit 1) (seq 0 (length xs)).
End loop.

(** The integer in [z] when the operands are integers. *)
Definition int_of (z : acc Z) : Z :=
  match z with
  | Lit n => n
  | Val n => n
  end.

(** ** Circuits nested to a given depth *)

(** [1 - (1 - ... (1 - c))], with [k] negations. *)
Fixpoint nots {S V : Type} `{!Overloaded S V} (k : nat) (c : V) : M S V :=
  match k with
  | O => ret c
  | Datatypes.S k' => c' <- nots k' c ;; one_minus c'
  end.

(** ** The texts [__repr__] puts together *)

(** [str] of a list, given the texts of its items. *)
Definition list_text (parts : list string) : string :=
  "[" +:+ join ", " parts +:+ "]".

(** ['circuit("' + op + '", ' + sargs + ')'] *)
Definition circuit_text (op sargs : string) : string :=
  "circuit(" +:+ dquote +:+ op +:+ dquote +:+ ", " +:+ sargs +:+ ")".

(** ** Computations that correspond in the first two variants *)

(** The second computation does on the image of a store what the first
    does on the store: the same outcome, and the image of the store the
    first leaves. *)
Definition corresponds {A} (m1 : M Tagged.heap A) (m2 : M Dict.heap A) : Prop :=
  forall h,
    m2 (Homomorphism.to_dict <$> h)
    = ((m1 h).1, Homomorphism.to_dict <$> (m1 h).2).

(** A computation that creates one object, returns it and does nothing
    else. *)
Definition creates_one {O} (m : M (list O) loc) : Prop :=
  forall h, exists o, m h = (Ok (length h), h ++ [o]).

(** ** The stores of the third variant *)

Module GraphShape.
Import Graph.

(** Every graph of the store is well formed and has a node. *)
Definition heap_ok (h : list circuit) : Prop :=
  forall l g, h !! l = Some g -> GraphWf.wf g /\ nodes g <> [].

(** One construction: a circuit [circuit(name)], or an operator applied
    to circuits that exist. *)
Inductive step : list circuit -> list circuit -> Prop :=
  | step_input h a r h' :
      __init__ (Some a) h = (Ok r, h') ->
      step h h'
  | step_or h c d r h' :
      c < length h -> d < length h ->
      __or__ c d h = (Ok r, h') ->
      step h h'
  | step_and h c d r h' :
      c < length h -> d < length h ->
      __and__ c d h = (Ok r, h') ->
      step h h'
  | step_not h c r h' :
      c < length h ->
      __rsub__ c (PyInt 1) h = (Ok r, h') ->
      step h h'.

(** The stores a program can reach from the empty one. *)
Inductive built : list circuit -> Prop :=
  | built_nil : built []
  | built_step h h' : built h -> step h h' -> built h'.

End GraphShape.

(** ** Labels without a dash *)

(** No character of [s] is a dash, the separator of node names. *)
Fixpoint dash_free (s : string) : bool :=
  match s with
  | EmptyString => true
  | String c s' => negb (c =? "-")%char && dash_free s'
  end.

(** No label of the tree holds a dash. *)
Fixpoint plain (t : Paths.tree) : bool :=
  match t with
  | Paths.Leaf a => dash_free a
  | Paths.Unary a t1 => dash_free a && plain t1
  | Paths.Binary a l r => dash_free a && plain l && plain r
  end.

(** ** The stores of the second variant *)

Module DictShape.
Import Dict.

(** The dictionary at location [i]: one key, an operation among the
    four, with a bit or a list of circuits made before it. *)
Definition well_shaped (i : loc) (d : circuit) : bool :=
  match d with
  | [(k, VInt b)] => bool_decide (k = "bit") && ((b =? 0)%Z || (b =? 1)%Z)
  | [(k, VList [a])] => bool_decide (k = "not") && bool_decide (a < i)
  | [(k, VList [a; b])] =>
      (bool_decide (k = "or") || bool_decide (k = "and"))
      && bool_decide (a < i) && bool_decide (b < i)
  | _ => false
  end.

Definition heap_ok (h : heap) : Prop :=
  forall i d, h !! i = Some d -> well_shaped i d = true.

(** One construction: a bit constant [circuit({"bit": b})], or an
    operator applied to circuits that exist. *)
Inductive step : heap -> heap -> Prop :=
  | step_bit h b r h' :
      is_bit b ->
      __init__ [("bit", VInt b)] h = (Ok r, h') ->
      step h h'
  | step_or h c d r h' :
      c < length h -> d < length h ->
      __or__ c d h = (Ok r, h') ->
      step h h'
  | step_and h c d r h' :
      c < length h -> d < length h ->
      __and__ c d h = (Ok r, h') ->
      step h h'
  | step_not h c r h' :
      c < length h ->
      __rsub__ c (PyInt 1) h = (Ok r, h') ->
      step h h'.

Inductive built : heap -> Prop :=
  | built_nil : built []
  | built_step h h' : built h -> step h h' -> built h'.

End DictShape.

(** The texts [json.dumps] puts together: an item [key: value] and a
    dictionary of items. *)
Definition item_text (k sv : string) : string :=
  encode_str k +:+ ": " +:+ sv.

Definition dict_text (items : list string) : string :=
  "{" +:+ join ", " items +:+ "}".

(** * Properties *)

(** ** Integers: [equals] decides the equality of bit vectors *)

Section int_facts.
Local Open Scope Z_scope.

Lemma equal_bits (x y : Z) :
  is_bit x -> is_bit y ->
  equal x y tt = (Ok (if x =? y then 1 else 0), tt).
Proof. intros [-> | ->] [-> | ->]; reflexivity. Qed.

Lemma mapM_equal_bits (xs ys : list Z) :
  Forall is_bit xs -> Forall is_bit ys ->
  mapM (fun p => equal p.1 p.2) (zip xs ys) tt
  = (Ok (map (fun p => if p.1 =? p.2 then 1 else 0) (zip xs ys)), tt).
Proof.
  intros Hxs. revert ys.
  induction Hxs as [| x xs Hx _ IH]; intros ys Hys; [reflexivity |].
  destruct Hys as [| y ys Hy Hys]; [reflexivity |].
  cbn [zip mapM map]. unfold bind at 1. cbn [fst snd].
  rewrite (equal_bits x y Hx Hy).
  unfold bind at 1. rewrite (IH ys Hys). reflexivity.
Qed.

Lemma foldM_and_bits (a : Z) (es : list Z) :
  is_bit a -> Forall is_bit es ->
  foldM (fun e0 e1 => and_ e0 e1) a es tt
  = (Ok (if (a =? 1) && forallb (Z.eqb 1) es then 1 else 0), tt).
Proof.
  intros Ha Hes. revert a Ha.
  induction Hes as [| e es He _ IH]; intros a Ha.
  - destruct Ha as [-> | ->]; reflexivity.
  - cbn [foldM]. unfold bind. cbn [and_ int_ops ret].
    rewrite IH by (destruct Ha as [-> | ->], He as [-> | ->]; [left | left | left | right]; reflexivity).
    destruct Ha as [-> | ->], He as [-> | ->]; reflexivity.
Qed.

Lemma flags_are_bits (ps : list (Z * Z)) :
  Forall is_bit (map (fun p => if p.1 =? p.2 then 1 else 0) ps).
Proof.
  apply Forall_forall. intros e He.
  apply list_elem_of_fmap in He as [p [-> _]].
  destruct (p.1 =? p.2); [right | left]; reflexivity.
Qed.

Lemma flags_all_one (xs ys : list Z) :
  length xs = length ys ->
  forallb (Z.eqb 1) (map (fun p => if p.1 =? p.2 then 1 else 0) (zip xs ys)) = true
  <-> xs = ys.
Proof.
  revert ys. induction xs as [| x xs IH]; intros [| y ys] Hlen;
    try discriminate; [easy |].
  injection Hlen as Hlen. cbn [zip map forallb fst snd].
  rewrite andb_true_iff, (IH ys Hlen).
  destruct (Z.eqb_spec x y) as [-> | Hne]; cbn.
  - split; [intros [_ ->]; reflexivity | intros [= ->]; easy].
  - split; [intros [[=] _] | intros [= ? _]; contradiction].
Qed.

(** [equals] on bit lists of one length: the flags of the positions,
    folded with [&]. *)
Lemma equals_bits (xs ys : list Z) :
  Forall is_bit xs -> Forall is_bit ys ->
  xs <> [] -> length xs = length ys ->
  equals xs ys tt = (Ok (if bool_decide (xs = ys) then 1 else 0), tt).
Proof.
  intros Hxs Hys Hne Hlen. unfold equals, bind.
  rewrite mapM_equal_bits by assumption.
  pose proof (flags_all_one xs ys Hlen) as Hall.
  pose proof (flags_are_bits (zip xs ys)) as Hbits.
  destruct xs as [| x xs]; [contradiction |].
  destruct ys as [| y ys]; [discriminate |].
  cbn [zip map reduce] in *. cbn [fst snd] in *.
  apply Forall_cons in Hbits as [Hb Hbs].
  rewrite foldM_and_bits by assumption.
  cbn [forallb] in Hall.
  assert ((1 =? (if x =? y then 1 else 0)) = ((if x =? y then 1 else 0) =? 1)) as E
    by (destruct (x =? y); reflexivity).
  rewrite E in Hall.
  destruct (((if x =? y then 1 else 0) =? 1) && _) eqn:Hf.
  - rewrite bool_decide_eq_true_2 by (apply Hall; reflexivity). reflexivity.
  - rewrite bool_decide_eq_false_2; [reflexivity |].
    intros Heq. apply Hall in Heq. discriminate.
Qed.
End int_facts.

(** C1. On non-empty bit lists of one length, [equals] returns [1] when
    the lists are equal element by element and [0] when they are not;
    [equals([0,1,1], [0,1,1])] returns [1], as the notebook prints. *)
Theorem equals_decides_bit_vectors (xs ys : list Z) :
  Forall is_bit xs -> Forall is_bit ys ->
  xs <> [] -> length xs = length ys ->
  (xs = ys -> equals xs ys tt = (Ok 1%Z, tt))
  /\ (xs <> ys -> equals xs ys tt = (Ok 0%Z, tt))
  /\ equals [0; 1; 1]%Z [0; 1; 1]%Z tt = (Ok 1%Z, tt).
Proof.
  intros Hxs Hys Hne Hlen.
  rewrite (equals_bits xs ys Hxs Hys Hne Hlen).
  split; [| split].
  - intros Heq. rewrite bool_decide_eq_true_2 by exact Heq. reflexivity.
  - intros Hneq. rewrite bool_decide_eq_false_2 by exact Hneq. reflexivity.
  - reflexivity.
Qed.

Lemma equals_decides_bit_vectors_witness :
  (Forall is_bit [0; 1; 1]%Z /\ Forall is_bit [0; 1; 0]%Z
   /\ [0; 1; 1]%Z <> [] /\ length [0; 1; 1]%Z = length [0; 1; 0]%Z)
  /\ equals [0; 1; 1]%Z [0; 1; 0]%Z tt = (Ok 0%Z, tt).
Proof.
  assert (Forall is_bit [0; 1; 1]%Z) as H1
    by (repeat constructor; ((left; reflexivity) || (right; reflexivity))).
  assert (Forall is_bit [0; 1; 0]%Z) as H2
    by (repeat constructor; ((left; reflexivity) || (right; reflexivity))).
  assert ([0; 1; 1]%Z <> ([] : list Z)) as H3 by discriminate.
  split; [split; [exact H1 | split; [exact H2 | split; [exact H3 | reflexivity]]] |].
  apply (equals_decides_bit_vectors [0; 1; 1]%Z [0; 1; 0]%Z H1 H2 H3 eq_refl).
  discriminate.
Defined.

(** ** [zip] truncates, and [reduce] needs an element *)

Lemma zip_take {A B} (xs : list A) (ys : list B) :
  zip xs ys
  = zip (take (length xs `min` length ys) xs) (take (length xs `min` length ys) ys).
Proof.
  revert ys. induction xs as [| x xs IH]; intros [| y ys]; cbn; try reflexivity.
  f_equal. apply IH.
Qed.

Lemma equals_take {S V : Type} `{!Overloaded S V} (xs ys : list V) (s : S) :
  equals xs ys s
  = equals (take (length xs `min` length ys) xs) (take (length xs `min` length ys) ys) s.
Proof. unfold equals. rewrite <- zip_take. reflexivity. Qed.

(** On bits, whatever the lengths: the common prefix decides. *)
Lemma equals_bits_prefix (bs cs : list Z) :
  Forall is_bit bs -> Forall is_bit cs -> bs <> [] -> cs <> [] ->
  equals bs cs tt
  = (Ok (if bool_decide (take (length bs `min` length cs) bs
                         = take (length bs `min` length cs) cs)
         then 1 else 0)%Z, tt).
Proof.
  intros Hbs Hcs Hb Hc. rewrite equals_take.
  apply equals_bits.
  - apply Forall_take. exact Hbs.
  - apply Forall_take. exact Hcs.
  - destruct bs; [contradiction |]. destruct cs; [contradiction |]. discriminate.
  - rewrite !length_take. lia.
Qed.

(** C9. [equals] on lists of unequal length is [equals] on their first
    [min(len(xs), len(ys))] elements, the pairs [zip] keeps: the surplus
    of the longer list is not looked at and raises nothing. On non-empty
    bit lists the result is [1] or [0] as these prefixes are equal or
    not, and [equals([1], [1, 0])] returns [1]. *)
Theorem equals_truncates {S V : Type} `{!Overloaded S V} (xs ys : list V) (s : S) :
  length xs <> length ys ->
  equals xs ys s
  = equals (take (length xs `min` length ys) xs) (take (length xs `min` length ys) ys) s
  /\ (forall bs cs : list Z,
        Forall is_bit bs -> Forall is_bit cs -> bs <> [] -> cs <> [] ->
        equals bs cs tt
        = (Ok (if bool_decide (take (length bs `min` length cs) bs
                               = take (length bs `min` length cs) cs)
               then 1 else 0)%Z, tt))
  /\ equals [1]%Z [1; 0]%Z tt = (Ok 1%Z, tt).
Proof.
  intros _. split; [apply equals_take | split; [apply equals_bits_prefix | reflexivity]].
Qed.

Lemma equals_truncates_witness :
  length [1; 1]%Z <> length [1; 0; 0]%Z
  /\ equals [1; 1]%Z [1; 0; 0]%Z tt = equals [1; 1]%Z [1; 0]%Z tt.
Proof.
  assert (length [1; 1]%Z <> length [1; 0; 0]%Z) as H by discriminate.
  split; [exact H |].
  exact (proj1 (equals_truncates [1; 1]%Z [1; 0; 0]%Z tt H)).
Defined.

(** C10. When [zip(xs, ys)] is empty, as for [equals([], [])], the list
    [es] is empty and [reduce], called without an initial value, raises
    [TypeError]; this holds for every type that overloads the three
    operators, so for integers and for the three circuit variants. *)
Theorem equals_empty_raises {S V : Type} `{!Overloaded S V} (xs ys : list V) (s : S) :
  zip xs ys = [] ->
  equals xs ys s = (Raise TypeError, s).
Proof.
  intros Hzip. unfold equals. rewrite Hzip. reflexivity.
Qed.

Lemma equals_empty_raises_witness :
  equals ([] : list Z) [] tt = (Raise TypeError, tt)
  /\ equals (S := Tagged.heap) [] [] [] = (Raise TypeError, [])
  /\ equals (S := Dict.heap) [] [] [] = (Raise TypeError, [])
  /\ equals (S := Graph.heap) [] [0] [Graph.empty] = (Raise TypeError, [Graph.empty]).
Proof.
  split; [| split; [| split]].
  - apply (equals_empty_raises (V := Z) [] [] tt). reflexivity.
  - apply (equals_empty_raises (S := Tagged.heap) [] [] []). reflexivity.
  - apply (equals_empty_raises (S := Dict.heap) [] [] []). reflexivity.
  - apply (equals_empty_raises (S := Graph.heap) [] [0] [Graph.empty]). reflexivity.
Defined.

(** ** Vectors *)

Lemma tuple_eqb_eq {A : Type} `{EqDecision A} (xs ys : list A) :
  Vector.tuple_eqb xs ys = true <-> xs = ys.
Proof.
  revert ys. induction xs as [| x xs IH]; intros [| y ys]; cbn; try easy.
  rewrite andb_true_iff, bool_decide_eq_true, IH.
  split; [intros [-> ->]; reflexivity | intros [= -> ->]; easy].
Qed.

(** C3. [v == w] is [True] exactly when the coordinate tuples of [v] and
    [w] are equal; [v == v] is [True] for every [v]; and for
    [v = vector(1,2)], [w = vector(3,4)] the pair [(v == w, v == v)] is
    [(False, True)]. *)
Theorem vector_eq_spec {A : Type} `{EqDecision A} (v w : Vector.vector A) :
  (Vector.__eq__ v w = true <-> Vector.coordinates v = Vector.coordinates w)
  /\ Vector.__eq__ v v = true
  /\ (let v := Vector.__init__ [1; 2]%Z in
      let w := Vector.__init__ [3; 4]%Z in
      (Vector.__eq__ v w, Vector.__eq__ v v) = (false, true)).
Proof.
  split; [| split].
  - apply tuple_eqb_eq.
  - apply tuple_eqb_eq. reflexivity.
  - reflexivity.
Qed.

(** ** The guard of [__rsub__] *)

Lemma guard_spec (v : pyval) :
  negb (isinstance_int v) || ne_one v = false <-> int_value v = Some 1%Z.
Proof.
  destruct v as [z | [] | m e | s |]; cbn; try easy.
  destruct (Z.eqb_spec z 1) as [-> | Hne]; cbn; [easy |].
  split; [discriminate | intros [= ->]; contradiction].
Qed.


(** ** First and second variant: what the operators compute *)

Lemma tagged_or_run (c d : loc) (h : Tagged.heap) :
  Tagged.__or__ c d h
  = (Ok (length h), h ++ [{| Tagged.op := "or"; Tagged.args := Tagged.ArgsList [c; d] |}]).
Proof. reflexivity. Qed.

Lemma tagged_and_run (c d : loc) (h : Tagged.heap) :
  Tagged.__and__ c d h
  = (Ok (length h), h ++ [{| Tagged.op := "and"; Tagged.args := Tagged.ArgsList [c; d] |}]).
Proof. reflexivity. Qed.

Lemma tagged_rsub_run (c : loc) (v : pyval) (h : Tagged.heap) :
  Tagged.__rsub__ c v h
  = if negb (isinstance_int v) || ne_one v then (Raise ValueError, h)
    else (Ok (length h), h ++ [{| Tagged.op := "not"; Tagged.args := Tagged.ArgsList [c] |}]).
Proof. unfold Tagged.__rsub__. destruct (negb (isinstance_int v) || ne_one v); reflexivity. Qed.

Lemma dict_or_run (c d : loc) (h : Dict.heap) :
  Dict.__or__ c d h = (Ok (length h), h ++ [[("or", Dict.VList [c; d])]]).
Proof. reflexivity. Qed.

Lemma dict_and_run (c d : loc) (h : Dict.heap) :
  Dict.__and__ c d h = (Ok (length h), h ++ [[("and", Dict.VList [c; d])]]).
Proof. reflexivity. Qed.

Lemma dict_rsub_run (c : loc) (v : pyval) (h : Dict.heap) :
  Dict.__rsub__ c v h
  = if negb (isinstance_int v) || ne_one v then (Raise ValueError, h)
    else (Ok (length h), h ++ [[("not", Dict.VList [c])]]).
Proof. unfold Dict.__rsub__. destruct (negb (isinstance_int v) || ne_one v); reflexivity. Qed.

(** An expression that appends objects to the store changes none of
    those it had, and one of the new objects is new. *)
Lemma appended_keeps {O} (h ext : list O) (r : result loc) : keeps h (r, h ++ ext).
Proof. intros l Hl. unfold unchanged. cbn. apply lookup_app_l. exact Hl. Qed.

Lemma appended_returns_new {O} (h ext : list O) (r i : nat) :
  r = length h + i -> i < length ext -> returns_new h (Ok r, h ++ ext).
Proof.
  intros -> Hi. exists (length h + i). cbn. split; [reflexivity | split].
  - apply lookup_ge_None. lia.
  - apply lookup_lt_is_Some. rewrite length_app. lia.
Qed.

(** ** C5: the shape of the first variant *)

Lemma heap_ok_snoc (h : Tagged.heap) (c : Tagged.circuit) :
  Shape.heap_ok h -> Shape.well_shaped (length h) c = true ->
  Shape.heap_ok (h ++ [c]).
Proof.
  intros Hok Hc i o Hi.
  apply lookup_app_Some in Hi as [Hi | [Hge Hi]].
  - apply Hok. exact Hi.
  - apply list_lookup_singleton_Some in Hi as [Hi ->].
    replace i with (length h) by lia. exact Hc.
Qed.

Lemma step_preserves_shape (h h' : Tagged.heap) :
  Shape.heap_ok h -> Shape.step h h' -> Shape.heap_ok h'.
Proof.
  intros Hok Hstep.
  destruct Hstep as [h b r h' Hb Hrun | h r h' Hrun | h c d r h' Hc Hd Hrun
                    | h c d r h' Hc Hd Hrun | h c r h' Hc Hrun].
  - injection Hrun as _ <-. apply heap_ok_snoc; [exact Hok |].
    destruct Hb as [-> | ->]; reflexivity.
  - injection Hrun as _ <-. apply heap_ok_snoc; [exact Hok | reflexivity].
  - rewrite tagged_or_run in Hrun. injection Hrun as _ <-.
    apply heap_ok_snoc; [exact Hok |]. unfold Shape.well_shaped. cbn.
    rewrite (bool_decide_eq_true_2 (c < length h)), (bool_decide_eq_true_2 (d < length h))
      by assumption.
    reflexivity.
  - rewrite tagged_and_run in Hrun. injection Hrun as _ <-.
    apply heap_ok_snoc; [exact Hok |]. unfold Shape.well_shaped. cbn.
    rewrite (bool_decide_eq_true_2 (c < length h)), (bool_decide_eq_true_2 (d < length h))
      by assumption.
    reflexivity.
  - rewrite tagged_rsub_run in Hrun. cbn in Hrun. injection Hrun as _ <-.
    apply heap_ok_snoc; [exact Hok |]. unfold Shape.well_shaped. cbn.
    rewrite (bool_decide_eq_true_2 (c < length h)) by assumption.
    reflexivity.
Qed.

Lemma built_shape (h : Tagged.heap) : Shape.built h -> Shape.heap_ok h.
Proof.
  induction 1 as [| h h' _ IH Hstep].
  - intros i c Hi. destruct i; discriminate Hi.
  - exact (step_preserves_shape h h' IH Hstep).
Qed.

(** In a store of well-shaped objects every location holds a tree. *)
Lemma shape_trees (h : list Tagged.circuit) :
  Shape.heap_ok h -> forall r, r < length h -> Shape.tree_at h r.
Proof.
  intros Hok r. induction r as [r IH] using lt_wf_ind. intros Hr.
  destruct (lookup_lt_is_Some_2 h r Hr) as [[o a] Ho].
  pose proof (Hok r _ Ho) as Hshape. unfold Shape.well_shaped in Hshape.
  cbn [Tagged.args Tagged.op] in Hshape.
  destruct a as [b | cs].
  - apply andb_true_iff in Hshape as [Hop Hb]. apply bool_decide_eq_true_1 in Hop.
    subst o. apply (Shape.tree_bit h r b Ho).
    apply orb_true_iff in Hb as [Hb | Hb]; apply Z.eqb_eq in Hb; [left | right]; exact Hb.
  - destruct cs as [| a [| b [| c cs]]]; [| | | discriminate].
    + apply bool_decide_eq_true_1 in Hshape. subst o. exact (Shape.tree_default h r Ho).
    + apply andb_true_iff in Hshape as [Hop Ha].
      apply bool_decide_eq_true_1 in Hop, Ha. subst o.
      apply (Shape.tree_not h r a Ho). apply IH; lia.
    + apply andb_true_iff in Hshape as [Hshape Hb]. apply andb_true_iff in Hshape as [Hop Ha].
      apply bool_decide_eq_true_1 in Ha, Hb.
      apply orb_true_iff in Hop as [Hop | Hop]; apply bool_decide_eq_true_1 in Hop; subst o.
      * apply (Shape.tree_or h r a b Ho); apply IH; lia.
      * apply (Shape.tree_and h r a b Ho); apply IH; lia.
Qed.

(** A construction that appends [c] to a store that can be reached, by
    a step of a program, has [c] for value, and [c] is a tree. *)
Lemma appended_value (m : M Tagged.heap loc) (h : list Tagged.circuit) (c : Tagged.circuit) :
  m h = (Ok (length h), h ++ [c]) -> Shape.step h (h ++ [c]) -> Shape.built h ->
  Shape.value_is m h c.
Proof.
  intros Hrun Hstep Hb.
  assert (Shape.built (h ++ [c])) as Hb' by exact (Shape.built_step h _ Hb Hstep).
  exists (length h), (h ++ [c]).
  split; [exact Hrun |]. split; [apply list_lookup_middle; reflexivity |].
  split; [| exact Hb'].
  apply shape_trees; [exact (built_shape _ Hb') |].
  rewrite length_app. cbn. lia.
Qed.

(** C5. In every store built from bit constants by [|], [&] and [1 - _],
    each object carries one of the operations [bit], [or], [and], [not];
    its [args] is a list of two earlier circuits for [or] and [and], of
    one for [not], and the empty list or a bit for [bit]; every value in
    the store is a tree of such objects. A bit constant, [c | d],
    [c & d] and [1 - c] on circuits of the store raise nothing: the
    value of each is a new object with that operation and these
    operands, a tree again, in a store that is again built so. *)
Theorem tagged_shape_invariant (h : Tagged.heap) :
  Shape.built h ->
  Shape.heap_ok h
  /\ (forall r, r < length h -> Shape.tree_at h r)
  /\ (forall b, is_bit b ->
      Shape.value_is (Tagged.__init__ (Some "bit") (Some (Tagged.ArgsInt b))) h
        {| Tagged.op := "bit"; Tagged.args := Tagged.ArgsInt b |})
  /\ Shape.value_is (Tagged.__init__ None None) h
       {| Tagged.op := "bit"; Tagged.args := Tagged.ArgsList [] |}
  /\ (forall c d, c < length h -> d < length h ->
      Shape.value_is (Tagged.__or__ c d) h
        {| Tagged.op := "or"; Tagged.args := Tagged.ArgsList [c; d] |}
      /\ Shape.value_is (Tagged.__and__ c d) h
           {| Tagged.op := "and"; Tagged.args := Tagged.ArgsList [c; d] |}
      /\ Shape.value_is (Tagged.__rsub__ c (PyInt 1)) h
           {| Tagged.op := "not"; Tagged.args := Tagged.ArgsList [c] |}).
Proof.
  intros Hb. pose proof (built_shape h Hb) as Hok.
  split; [exact Hok |].
  split; [exact (shape_trees h Hok) |].
  split; [| split].
  - intros b Hbit. apply appended_value; [reflexivity | | exact Hb].
    apply (Shape.step_bit h b (length h)); [exact Hbit | reflexivity].
  - apply appended_value; [reflexivity | | exact Hb].
    apply (Shape.step_default h (length h)). reflexivity.
  - intros c d Hc Hd. split; [| split].
    + apply appended_value; [reflexivity | | exact Hb].
      apply (Shape.step_or h c d (length h)); [exact Hc | exact Hd | reflexivity].
    + apply appended_value; [reflexivity | | exact Hb].
      apply (Shape.step_and h c d (length h)); [exact Hc | exact Hd | reflexivity].
    + apply appended_value; [reflexivity | | exact Hb].
      apply (Shape.step_not h c (length h)); [exact Hc | reflexivity].
Qed.

Lemma tagged_shape_invariant_witness :
  let c0 := {| Tagged.op := "bit"; Tagged.args := Tagged.ArgsInt 0 |} in
  let c1 := {| Tagged.op := "bit"; Tagged.args := Tagged.ArgsInt 1 |} in
  let c01 := {| Tagged.op := "and"; Tagged.args := Tagged.ArgsList [0; 1] |} in
  let c2 := {| Tagged.op := "not"; Tagged.args := Tagged.ArgsList [2] |} in
  Shape.built [c0; c1; c01; c2]
  /\ Shape.heap_ok [c0; c1; c01; c2]
  /\ Shape.tree_at [c0; c1; c01; c2] 3
  /\ Shape.value_is (Tagged.__or__ 3 0) [c0; c1; c01; c2]
       {| Tagged.op := "or"; Tagged.args := Tagged.ArgsList [3; 0] |}.
Proof.
  intros c0 c1 c01 c2.
  assert (Shape.built [c0; c1; c01; c2]) as Hb.
  { apply (Shape.built_step [c0; c1; c01]).
    - apply (Shape.built_step [c0; c1]).
      + apply (Shape.built_step [c0]).
        * apply (Shape.built_step []); [apply Shape.built_nil |].
          apply (Shape.step_bit [] 0%Z 0); [left |]; reflexivity.
        * apply (Shape.step_bit [c0] 1%Z 1); [right |]; reflexivity.
      + apply (Shape.step_and [c0; c1] 0 1 2); cbn; [lia | lia | reflexivity].
    - apply (Shape.step_not [c0; c1; c01] 2 3); cbn; [lia | reflexivity]. }
  split; [exact Hb |].
  destruct (tagged_shape_invariant [c0; c1; c01; c2] Hb) as (Hok & Htree & _ & _ & Hops).
  split; [exact Hok |].
  split; [apply Htree; cbn; lia |].
  apply Hops; cbn; lia.
Defined.

(** ** C6: the JSON text of the equality circuit *)

(** C6. With [c0 = circuit({"bit": 0})] and [c1 = circuit({"bit": 1})],
    [json.dumps(equals([c0, c1], [c0, c1]))] is the text the notebook
    prints. *)
Theorem dict_equals_json_printed :
  (Examples.dict_equals_json []).1 = Ok Examples.printed_json.
Proof. vm_compute. reflexivity. Qed.

(** The first variant displays the same circuit as the notebook shows. *)
Lemma tagged_equals_displayed :
  (Examples.tagged_equals_repr []).1 = Ok Examples.displayed_repr.
Proof. vm_compute. reflexivity. Qed.

(** Both runs nest five levels deep: under an interpreter that affords
    five levels they give these texts, under any other they raise
    [RecursionError]. *)
Lemma prints_at_levels (i : interpreter) :
  (Examples.prints_at i []).1
  = if 5 <=? levels i (dumps_calls i) then Ok Examples.printed_json
    else Raise RecursionError.
Proof.
  unfold Examples.prints_at, Json.dumps.
  destruct (levels i (dumps_calls i)) as [| [| [| [| [| n]]]]]; vm_compute; reflexivity.
Qed.

Lemma displays_at_levels (i : interpreter) :
  (Examples.displays_at i []).1
  = if 5 <=? levels i (repr_calls i) then Ok Examples.displayed_repr
    else Raise RecursionError.
Proof.
  unfold Examples.displays_at, Tagged.__repr__.
  destruct (levels i (repr_calls i)) as [| [| [| [| [| n]]]]]; vm_compute; reflexivity.
Qed.

(** ** C8: the first two variants build the same circuits *)

Lemma fmap_snoc_to_dict (h : Tagged.heap) (c : Tagged.circuit) :
  Homomorphism.to_dict <$> (h ++ [c])
  = (Homomorphism.to_dict <$> h) ++ [Homomorphism.to_dict c].
Proof. exact (fmap_app Homomorphism.to_dict h [c]). Qed.

(** C8. An expression over bit constants, [|], [&] and [1 - _] builds,
    in the first and in the second variant, stores that correspond
    object by object under [circuit(op, args) |-> {op: args}], and its
    value is the same location in both. *)
Theorem tagged_dict_homomorphism (e : expr) (h : Tagged.heap) :
  exists r h',
    Homomorphism.eval_tagged e h = (Ok r, h')
    /\ Homomorphism.eval_dict e (Homomorphism.to_dict <$> h)
       = (Ok r, Homomorphism.to_dict <$> h').
Proof.
  unfold Homomorphism.eval_tagged, Homomorphism.eval_dict.
  revert h. induction e as [b | c | e1 IH1 e2 IH2 | e1 IH1 e2 IH2 | e1 IH1]; intros h.
  - eexists _, _. split; [reflexivity |].
    cbn. unfold Dict.__init__, alloc. rewrite fmap_snoc_to_dict, length_fmap. reflexivity.
  - exists c, h. split; reflexivity.
  - destruct (IH1 h) as (a & h1 & Ha & Ha').
    destruct (IH2 h1) as (b & h2 & Hb & Hb').
    eexists _, _. cbn [eval]. unfold bind at 1 3. rewrite Ha, Ha'.
    unfold bind at 1 2. rewrite Hb, Hb'.
    split; [reflexivity |].
    cbn. unfold Dict.__or__, Dict.__init__, alloc.
    rewrite fmap_snoc_to_dict, length_fmap. reflexivity.
  - destruct (IH1 h) as (a & h1 & Ha & Ha').
    destruct (IH2 h1) as (b & h2 & Hb & Hb').
    eexists _, _. cbn [eval]. unfold bind at 1 3. rewrite Ha, Ha'.
    unfold bind at 1 2. rewrite Hb, Hb'.
    split; [reflexivity |].
    cbn. unfold Dict.__and__, Dict.__init__, alloc.
    rewrite fmap_snoc_to_dict, length_fmap. reflexivity.
  - destruct (IH1 h) as (a & h1 & Ha & Ha').
    eexists _, _. cbn [eval]. unfold bind at 1 2. rewrite Ha, Ha'.
    split; [reflexivity |].
    cbn. unfold Dict.__rsub__, Dict.__init__, alloc. cbn.
    rewrite fmap_snoc_to_dict, length_fmap. reflexivity.
Qed.

(** ** C7: the graph of the equality circuit *)

(** C7. The circuit [c] has 18 edges; the last three entries of its node
    list are those the notebook shows; its first node is the output
    node; and the name of each node spells the steps [l], [r] and [n]
    that lead from the output node to it: along edges of the graph, and
    in the equality circuit, whose places are its nodes and whose wires
    are its edges. *)
Theorem graph_equals_nodes_edges :
  exists c,
    (Examples.graph_equals []).1 = Ok c
    /\ length (Graph.edges c) = 18
    /\ drop (length (Graph.nodes c) - 3) (Graph.nodes c)
       = ["r-r-l-n-$x_1$"; "r-r-r-$\neg$"; "r-r-r-n-$y_1$"]
    /\ head (Graph.nodes c) = Some "$\wedge$"
    /\ forallb (Paths.names_its_path c) (Graph.nodes c) = true
    /\ Graph.nodes c = map Paths.name (Paths.places Paths.equals_tree)
    /\ Graph.edges c = Paths.wires Paths.equals_tree.
Proof.
  eexists. split; [vm_compute; reflexivity |].
  repeat split; vm_compute; reflexivity.
Qed.

(** ** Third variant: what the operators compute *)

Module GraphFacts.
Import Graph GraphWf.

(** *** The store under a computation *)

Lemma load_in (h ext : list circuit) (l : loc) (o : circuit) :
  h !! l = Some o -> load l (h ++ ext) = (Ok o, h ++ ext).
Proof. intros H. unfold load. rewrite (lookup_app_l_Some _ _ _ _ H). reflexivity. Qed.

Lemma lookup_at (h ext : list circuit) (i : nat) (o : circuit) :
  ext !! i = Some o -> (h ++ ext) !! (length h + i) = Some o.
Proof.
  intros H. rewrite lookup_app_r by lia.
  replace (length h + i - length h) with i by lia. exact H.
Qed.

Lemma load_at (h ext : list circuit) (n i : nat) (o : circuit) :
  n = length h + i -> ext !! i = Some o -> load n (h ++ ext) = (Ok o, h ++ ext).
Proof.
  intros -> H. unfold load. rewrite lookup_app_r by lia.
  replace (length h + i - length h) with i by lia. rewrite H. reflexivity.
Qed.

Lemma modify_at (h ext : list circuit) (n i : nat) (o : circuit) (f : circuit -> circuit) :
  n = length h + i -> ext !! i = Some o ->
  modify n f (h ++ ext) = (Ok tt, h ++ <[i := f o]> ext).
Proof.
  intros -> H. unfold modify. rewrite lookup_app_r by lia.
  replace (length h + i - length h) with i by lia. rewrite H.
  rewrite insert_app_r. reflexivity.
Qed.

Lemma alloc_at (h ext : list circuit) (o : circuit) :
  alloc o (h ++ ext) = (Ok (length h + length ext), h ++ (ext ++ [o])).
Proof. unfold alloc. rewrite length_app, app_assoc. reflexivity. Qed.

Lemma init_none_at (h ext : list circuit) :
  __init__ None (h ++ ext) = (Ok (length h + length ext), h ++ (ext ++ [empty])).
Proof. unfold __init__, bind. rewrite alloc_at. reflexivity. Qed.

Lemma init_some_at (h ext : list circuit) (a : string) :
  __init__ (Some a) (h ++ ext) = (Ok (length h + length ext), h ++ (ext ++ [leaf a])).
Proof.
  unfold __init__, bind. rewrite alloc_at. unfold add_nodes_from.
  rewrite (modify_at h (ext ++ [empty]) _ (length ext) empty) by
    (try reflexivity; apply list_lookup_middle; reflexivity).
  rewrite insert_app_r_alt by lia. rewrite Nat.sub_diag. reflexivity.
Qed.

Lemma relabel_at (h ext : list circuit) (G : loc) (g : circuit) (f : string -> string) :
  (h ++ ext) !! G = Some g ->
  relabel_nodes G f (h ++ ext)
  = (Ok (length h + length ext), h ++ (ext ++ [relabel f g])).
Proof.
  intros HG. unfold relabel_nodes, bind.
  unfold load at 1. rewrite HG. rewrite init_none_at.
  unfold add_nodes_from, add_edges_from.
  rewrite (modify_at h (ext ++ [empty]) _ (length ext) empty) by
    (try reflexivity; apply list_lookup_middle; reflexivity).
  rewrite insert_app_r_alt by lia. rewrite Nat.sub_diag. cbn [insert list_insert].
  rewrite (modify_at h (ext ++ [_]) _ (length ext) _) by
    (try reflexivity; apply list_lookup_middle; reflexivity).
  rewrite insert_app_r_alt by lia. rewrite Nat.sub_diag. reflexivity.
Qed.

Lemma lookup_more (h ext more : list circuit) (l : loc) (o : circuit) :
  (h ++ ext) !! l = Some o -> (h ++ (ext ++ more)) !! l = Some o.
Proof. intros H. rewrite app_assoc. apply lookup_app_l_Some. exact H. Qed.

Lemma fill_at (h ext rest : list circuit) (R : loc) (ns ms : list string)
    (es fs : list (string * string)) :
  R = length h + length ext ->
  (do add_nodes_from R ns ;; do add_nodes_from R ms ;;
   do add_edges_from R es ;; do add_edges_from R fs ;; ret R)
    (h ++ (ext ++ empty :: rest))
  = (Ok R, h ++ (ext ++ foldl add_edge
                          (foldl add_edge (foldl add_node (foldl add_node empty ns) ms) es)
                          fs :: rest)).
Proof.
  intros ->. unfold bind, add_nodes_from, add_edges_from.
  repeat (erewrite (modify_at h (ext ++ _ :: rest) _ (length ext)) by
            (try reflexivity; apply list_lookup_middle; reflexivity);
          rewrite insert_app_r_alt by lia; rewrite Nat.sub_diag; cbn [insert list_insert]).
  reflexivity.
Qed.

Lemma union_plain_at (h ext : list circuit) (G K : loc) (g k : circuit) :
  (h ++ ext) !! G = Some g -> (h ++ ext) !! K = Some k ->
  union G K (None, None) (h ++ ext)
  = if meets g k then (Raise NetworkXError, h ++ (ext ++ [empty]))
    else (Ok (length h + length ext), h ++ (ext ++ [merge g k])).
Proof.
  intros HG HK. unfold union. unfold bind at 1. rewrite init_none_at.
  cbn [fst snd add_prefix]. unfold bind at 1 2 3 4, ret at 1 2.
  unfold load at 1. rewrite (lookup_more _ _ _ _ _ HG).
  unfold load at 1. rewrite (lookup_more _ _ _ _ _ HK).
  fold (meets g k). destruct (meets g k); [reflexivity |].
  apply (fill_at h ext []). reflexivity.
Qed.

Lemma union_renamed_at (h ext : list circuit) (G K : loc) (g k : circuit) (p q : string) :
  (h ++ ext) !! G = Some g -> (h ++ ext) !! K = Some k ->
  let g' := relabel (fun x => p +:+ x) g in
  let k' := relabel (fun x => q +:+ x) k in
  union G K (Some p, Some q) (h ++ ext)
  = if meets g' k' then (Raise NetworkXError, h ++ (ext ++ [empty; g'; k']))
    else (Ok (length h + length ext), h ++ (ext ++ [merge g' k'; g'; k'])).
Proof.
  intros HG HK g' k'. unfold union. unfold bind at 1. rewrite init_none_at.
  cbn [fst snd add_prefix]. unfold bind at 1.
  rewrite (relabel_at h (ext ++ [empty]) G g) by (apply lookup_more; exact HG).
  fold g'. unfold bind at 1.
  rewrite (relabel_at h ((ext ++ [empty]) ++ [g']) K k) by (do 2 apply lookup_more; exact HK).
  fold k'. rewrite <- !(app_assoc ext). cbn [app].
  unfold bind at 1.
  rewrite (load_at h (ext ++ [empty; g'; k']) _ (length ext + 1) g')
    by (rewrite ?length_app; cbn [length]; try lia;
        rewrite lookup_app_r by lia;
        replace (length ext + 1 - length ext) with 1 by lia; reflexivity).
  unfold bind at 1.
  rewrite (load_at h (ext ++ [empty; g'; k']) _ (length ext + 2) k')
    by (rewrite ?length_app; cbn [length]; try lia;
        rewrite lookup_app_r by lia;
        replace (length ext + 2 - length ext) with 2 by lia; reflexivity).
  fold (meets g' k'). destruct (meets g' k'); [reflexivity |].
  apply (fill_at h ext [g'; k']). reflexivity.
Qed.

(** *** The graphs the operators build *)

Lemma leaf_eq (a : string) : leaf a = {| nodes := [a]; edges := [] |}.
Proof.
  unfold leaf. cbn. unfold add_node.
  rewrite bool_decide_eq_false_2 by apply not_elem_of_nil. reflexivity.
Qed.

Lemma binary_at (label : string) (h : list circuit) (c d : loc) (g k : circuit) :
  h !! c = Some g -> h !! d = Some k ->
  let g' := relabel (fun x => "l-" +:+ x) g in
  let k' := relabel (fun x => "r-" +:+ x) k in
  meets g' k' = false -> meets (leaf label) (merge g' k') = false ->
  binary label c d h
  = match nodes g, nodes k with
    | s0 :: _, o0 :: _ =>
        (Ok (length h + 4),
         h ++ [leaf label; merge g' k'; g'; k';
               foldl add_edge (merge (leaf label) (merge g' k'))
                 [(label, "l-" +:+ s0); (label, "r-" +:+ o0)]])
    | _, _ =>
        (Raise IndexError,
         h ++ [leaf label; merge g' k'; g'; k'; merge (leaf label) (merge g' k')])
    end.
Proof.
  intros Hc Hd g' k' Hgk Htop. unfold binary. unfold bind at 1.
  pose proof (init_some_at h [] label) as Hinit.
  rewrite app_nil_r in Hinit. rewrite Hinit. cbn [length app].
  unfold bind at 1.
  rewrite (union_renamed_at h [leaf label] c d g k)
    by (apply lookup_app_l_Some; assumption).
  fold g' k'. rewrite Hgk. cbn [length app].
  unfold bind at 1.
  rewrite (union_plain_at h [leaf label; merge g' k'; g'; k']
             (length h + 0) (length h + 1) (leaf label) (merge g' k'))
    by (apply lookup_at; reflexivity).
  rewrite Htop. cbn [length app].
  unfold bind at 1. rewrite (load_in h _ c g Hc).
  unfold bind at 1. unfold index.
  destruct (nodes g) as [| s0 ns]; [destruct (nodes k); reflexivity |].
  cbn [lookup list_lookup]. unfold ret at 1.
  unfold bind at 1. rewrite (load_in h _ d k Hd).
  unfold bind at 1.
  destruct (nodes k) as [| o0 ms]; [reflexivity |].
  cbn [lookup list_lookup]. unfold ret at 1.
  unfold bind at 1. unfold add_edges_from.
  rewrite (modify_at h _ _ 4 (merge (leaf label) (merge g' k'))) by reflexivity.
  reflexivity.
Qed.

Lemma rsub_at (h : list circuit) (c : loc) (g : circuit) (v : pyval) :
  h !! c = Some g -> int_value v = Some 1%Z ->
  let g' := relabel (fun x => "n-" +:+ x) g in
  meets (leaf "$\neg$") g' = false ->
  __rsub__ c v h
  = match nodes g with
    | s0 :: _ =>
        (Ok (length h + 1),
         h ++ [leaf "$\neg$";
               foldl add_edge (merge (leaf "$\neg$") g') [("$\neg$", "n-" +:+ s0)];
               leaf "$\neg$"; g'])
    | [] =>
        (Raise IndexError,
         h ++ [leaf "$\neg$"; merge (leaf "$\neg$") g'; leaf "$\neg$"; g'])
    end.
Proof.
  intros Hc Hv g' Hmeet. unfold __rsub__.
  rewrite (proj2 (guard_spec v) Hv).
  unfold bind at 1.
  pose proof (init_some_at h [] "$\neg$") as Hinit.
  rewrite app_nil_r in Hinit. rewrite Hinit. cbn [length app].
  unfold bind at 1.
  rewrite (union_renamed_at h [leaf "$\neg$"] (length h + 0) c (leaf "$\neg$") g)
    by (first [apply lookup_at; reflexivity | apply lookup_app_l_Some; assumption]).
  fold g'.
  replace (relabel (fun x => "" +:+ x) (leaf "$\neg$")) with (leaf "$\neg$")
    by (vm_compute; reflexivity).
  rewrite Hmeet. cbn [length app].
  unfold bind at 1. rewrite (load_in h _ c g Hc).
  unfold bind at 1. unfold index.
  destruct (nodes g) as [| s0 ns]; [reflexivity |].
  cbn [lookup list_lookup]. unfold ret at 1.
  unfold bind at 1. unfold add_edges_from.
  rewrite (modify_at h _ _ 1 (merge (leaf "$\neg$") g')) by reflexivity.
  reflexivity.
Qed.

(** *** Nodes carry the prefix of their operand *)

Lemma add_node_covered (P : string -> Prop) (g : circuit) (n : string) :
  covered P g -> P n -> covered P (add_node g n).
Proof.
  intros [Hn He] Hp. unfold add_node. destruct (bool_decide _); [split; assumption |].
  split; [cbn; apply Forall_app; split; [assumption | constructor; [assumption | constructor]] | exact He].
Qed.

Lemma add_edge_covered (P : string -> Prop) (g : circuit) (e : string * string) :
  covered P g -> P e.1 -> P e.2 -> covered P (add_edge g e).
Proof.
  intros Hg H1 H2. unfold add_edge.
  pose proof (add_node_covered P _ e.2 (add_node_covered P g e.1 Hg H1) H2) as [Hn He].
  destruct (has_edge _ _ _); [split; assumption |].
  split; [exact Hn |]. cbn. apply Forall_app. split; [exact He |].
  constructor; [split; assumption | constructor].
Qed.

Lemma add_nodes_covered (P : string -> Prop) (ns : list string) (g : circuit) :
  covered P g -> Forall P ns -> covered P (foldl add_node g ns).
Proof.
  intros Hg Hns. revert g Hg. induction Hns as [| n ns Hn _ IH]; intros g Hg; [exact Hg |].
  cbn. apply IH. apply add_node_covered; assumption.
Qed.

Lemma add_edges_covered (P : string -> Prop) (es : list (string * string)) (g : circuit) :
  covered P g -> Forall (fun e => P e.1 /\ P e.2) es -> covered P (foldl add_edge g es).
Proof.
  intros Hg Hes. revert g Hg. induction Hes as [| e es [H1 H2] _ IH]; intros g Hg; [exact Hg |].
  cbn. apply IH. apply add_edge_covered; assumption.
Qed.

Lemma empty_covered (P : string -> Prop) : covered P empty.
Proof. split; constructor. Qed.

Lemma relabel_covered (f : string -> string) (g : circuit) :
  covered (fun n => exists x, n = f x) (relabel f g).
Proof.
  unfold relabel. apply add_edges_covered; [apply add_nodes_covered; [apply empty_covered |] |].
  - apply Forall_forall. intros n Hn. apply list_elem_of_fmap in Hn as [x [-> _]]. eauto.
  - apply Forall_forall. intros e He. apply list_elem_of_fmap in He as [x [-> _]]. cbn. eauto.
Qed.

Lemma merge_covered (P : string -> Prop) (g k : circuit) :
  covered P g -> covered P k -> covered P (merge g k).
Proof.
  intros [Hgn Hge] [Hkn Hke]. unfold merge.
  repeat first [apply add_edges_covered | apply add_nodes_covered | apply empty_covered];
    assumption.
Qed.

Lemma covered_impl (P Q : string -> Prop) (g : circuit) :
  (forall n, P n -> Q n) -> covered P g -> covered Q g.
Proof.
  intros HPQ [Hn He]. split.
  - eapply Forall_impl; [exact Hn | exact HPQ].
  - eapply Forall_impl; [exact He |]. intros e [H1 H2]. split; apply HPQ; assumption.
Qed.

Lemma meets_false (g k : circuit) :
  (forall n, n ∈ nodes g -> n ∉ nodes k) -> meets g k = false.
Proof.
  intros H. unfold meets. apply not_true_iff_false. intros Hex.
  apply existsb_exists in Hex as [n [Hn Hk]].
  apply bool_decide_eq_true_1 in Hk. apply list_elem_of_In in Hn. exact (H n Hn Hk).
Qed.

Lemma sides_apart (g k : circuit) :
  meets (relabel (fun x => "l-" +:+ x) g) (relabel (fun x => "r-" +:+ x) k) = false.
Proof.
  apply meets_false. intros n Hg Hk.
  destruct (relabel_covered (fun x => "l-" +:+ x) g) as [Hl _].
  destruct (relabel_covered (fun x => "r-" +:+ x) k) as [Hr _].
  rewrite Forall_forall in Hl, Hr.
  destruct (Hl n Hg) as [x ->]. destruct (Hr _ Hk) as [y Hy]. discriminate Hy.
Qed.

Lemma top_apart (label : string) (g k : circuit) :
  label = "$\vee$" \/ label = "$\wedge$" ->
  meets (leaf label)
    (merge (relabel (fun x => "l-" +:+ x) g) (relabel (fun x => "r-" +:+ x) k)) = false.
Proof.
  intros Hlabel. apply meets_false. intros n Hn Hm.
  rewrite leaf_eq in Hn. apply list_elem_of_singleton in Hn as ->.
  assert (covered (fun n => exists x, n = "l-" +:+ x \/ n = "r-" +:+ x)
            (merge (relabel (fun x => "l-" +:+ x) g) (relabel (fun x => "r-" +:+ x) k)))
    as [Hcov _].
  { apply merge_covered.
    - eapply covered_impl; [| apply relabel_covered]. intros n [x ->]. eauto.
    - eapply covered_impl; [| apply relabel_covered]. intros n [x ->]. eauto. }
  rewrite Forall_forall in Hcov. destruct (Hcov _ Hm) as [x [Hx | Hx]];
    destruct Hlabel as [-> | ->]; discriminate Hx.
Qed.

Lemma neg_apart (g : circuit) :
  meets (leaf "$\neg$") (relabel (fun x => "n-" +:+ x) g) = false.
Proof.
  apply meets_false. intros n Hn Hm.
  rewrite leaf_eq in Hn. apply list_elem_of_singleton in Hn as ->.
  destruct (relabel_covered (fun x => "n-" +:+ x) g) as [Hcov _].
  rewrite Forall_forall in Hcov. destruct (Hcov _ Hm) as [x Hx]. discriminate Hx.
Qed.

(** *** Well-formed graphs *)

Lemma add_node_fresh (g : circuit) (n : string) :
  n ∉ nodes g -> add_node g n = {| nodes := nodes g ++ [n]; edges := edges g |}.
Proof. intros H. unfold add_node. rewrite bool_decide_eq_false_2 by exact H. reflexivity. Qed.

Lemma add_node_present (g : circuit) (n : string) :
  n ∈ nodes g -> add_node g n = g.
Proof. intros H. unfold add_node. rewrite bool_decide_eq_true_2 by exact H. reflexivity. Qed.

Lemma add_nodes_fresh (ns : list string) (g : circuit) :
  NoDup (nodes g ++ ns) ->
  foldl add_node g ns = {| nodes := nodes g ++ ns; edges := edges g |}.
Proof.
  revert g. induction ns as [| n ns IH]; intros g Hnd.
  - cbn. rewrite app_nil_r. destruct g; reflexivity.
  - cbn [foldl]. rewrite add_node_fresh.
    + rewrite IH; cbn [nodes edges]; rewrite <- app_assoc; [reflexivity | exact Hnd].
    + apply NoDup_app in Hnd as (_ & Hnot & _). intros Hin.
      apply (Hnot n Hin). left.
Qed.

Lemma add_edge_fresh (g : circuit) (e : string * string) :
  e.1 ∈ nodes g -> e.2 ∈ nodes g -> e ∉ edges g -> (e.2, e.1) ∉ edges g ->
  add_edge g e = {| nodes := nodes g; edges := edges g ++ [e] |}.
Proof.
  intros H1 H2 He Hr. unfold add_edge.
  rewrite (add_node_present g e.1 H1), (add_node_present g e.2 H2).
  unfold has_edge. destruct e as [u v]. cbn [fst snd] in *.
  rewrite !bool_decide_eq_false_2 by assumption. reflexivity.
Qed.

Lemma simple_snoc (es : list (string * string)) (e : string * string)
    (rest : list (string * string)) :
  simple (es ++ e :: rest) -> (e ∉ es) /\ ((e.2, e.1) ∉ es).
Proof.
  intros [Hnd Hsym].
  apply NoDup_app in Hnd as (_ & Hnot & _).
  assert (e ∉ es) as He by (intros Hin; apply (Hnot e Hin); left).
  split; [exact He |]. intros Hrev.
  rewrite Forall_forall in Hsym.
  assert ((e.2, e.1) ∈ es ++ e :: rest) as Hin
    by (apply elem_of_app; left; exact Hrev).
  specialize (Hsym _ Hin). cbn [fst snd] in Hsym.
  assert (e.2 = e.1) as Heq.
  { apply Hsym. apply elem_of_app. right. destruct e; left. }
  apply He. destruct e as [u v]. cbn [fst snd] in *. subst v. exact Hrev.
Qed.

Lemma add_edges_fresh (es : list (string * string)) (g : circuit) :
  (forall e, e ∈ es -> e.1 ∈ nodes g /\ e.2 ∈ nodes g) ->
  simple (edges g ++ es) ->
  foldl add_edge g es = {| nodes := nodes g; edges := edges g ++ es |}.
Proof.
  revert g. induction es as [| e es IH]; intros g Hin Hs.
  - cbn. rewrite app_nil_r. destruct g; reflexivity.
  - cbn [foldl].
    destruct (simple_snoc _ _ _ Hs) as [He Hr].
    destruct (Hin e) as [H1 H2]; [left |].
    rewrite add_edge_fresh by assumption.
    rewrite IH; cbn [nodes edges].
    + rewrite <- app_assoc. reflexivity.
    + intros e' He'. apply Hin. right. exact He'.
    + rewrite <- app_assoc. exact Hs.
Qed.

Lemma simple_fmap (f : string -> string) (es : list (string * string)) :
  (forall x y, f x = f y -> x = y) ->
  simple es -> simple ((fun e => (f e.1, f e.2)) <$> es).
Proof.
  intros Hinj [Hnd Hsym]. split.
  - apply NoDup_fmap_2; [| exact Hnd].
    intros [a b] [c d] [= H1 H2]. apply Hinj in H1, H2. congruence.
  - apply Forall_forall. intros e He Hrev.
    apply list_elem_of_fmap in He as [[a b] [-> Hab]].
    cbn [fst snd] in *.
    apply list_elem_of_fmap in Hrev as [[c d] [[= H1 H2] Hcd]].
    cbn [fst snd] in *. apply Hinj in H1, H2. subst c d.
    rewrite Forall_forall in Hsym. f_equal.
    exact (Hsym (a, b) Hab Hcd).
Qed.

Lemma relabel_wf (f : string -> string) (g : circuit) :
  (forall x y, f x = f y -> x = y) -> wf g ->
  relabel f g
  = {| nodes := f <$> nodes g; edges := (fun e => (f e.1, f e.2)) <$> edges g |}.
Proof.
  intros Hinj (Hnd & Hends & Hs). unfold relabel.
  rewrite add_nodes_fresh by (cbn; apply NoDup_fmap_2; [intros x y; apply Hinj | exact Hnd]).
  cbn [nodes edges app].
  rewrite add_edges_fresh; cbn [nodes edges app]; [reflexivity | |].
  - intros e He. apply list_elem_of_fmap in He as [e0 [-> He0]].
    destruct (Hends e0 He0) as [H1 H2]. cbn [fst snd].
    split; apply list_elem_of_fmap; eauto.
  - apply simple_fmap; assumption.
Qed.

Lemma merge_leaf (a : string) (k : circuit) :
  a ∉ nodes k -> wf k ->
  merge (leaf a) k = {| nodes := a :: nodes k; edges := edges k |}.
Proof.
  intros Ha (Hnd & Hends & Hs). unfold merge. rewrite leaf_eq. cbn [nodes edges foldl].
  rewrite add_node_fresh by apply not_elem_of_nil. cbn [nodes edges app].
  rewrite add_nodes_fresh by (cbn; apply NoDup_cons; split; assumption).
  cbn [nodes edges app].
  rewrite add_edges_fresh; cbn [nodes edges app]; [reflexivity | | exact Hs].
  intros e He. destruct (Hends e He) as [H1 H2]. split; right; assumption.
Qed.

Lemma prefix_inj (p : string) (x y : string) : p +:+ x = p +:+ y -> x = y.
Proof. induction p as [| c p IH]; cbn; [easy |]. intros [= H]. exact (IH H). Qed.

Lemma negation_built (g : circuit) (root : string) :
  wf g -> root ∈ nodes g ->
  foldl add_edge (merge (leaf "$\neg$") (relabel (fun x => "n-" +:+ x) g))
    [("$\neg$", "n-" +:+ root)]
  = negation g root.
Proof.
  intros Hwf Hroot.
  pose proof Hwf as (Hnd & Hends & Hs).
  assert (forall x y, (fun x => "n-" +:+ x) x = (fun x => "n-" +:+ x) y -> x = y) as Hinj
    by (intros x y; apply prefix_inj).
  rewrite (relabel_wf (fun x => "n-" +:+ x) g Hinj Hwf).
  assert (forall (n : string), n ∈ (fun x => "n-" +:+ x) <$> nodes g -> n <> "$\neg$") as Hneq.
  { intros n Hn. apply list_elem_of_fmap in Hn as [x [-> _]]. discriminate. }
  rewrite merge_leaf; cbn [nodes edges].
  - cbn [foldl]. rewrite add_edge_fresh; cbn [nodes edges fst snd].
    + reflexivity.
    + left.
    + right. apply list_elem_of_fmap. eauto.
    + intros Hin. apply list_elem_of_fmap in Hin as [e [He _]]. discriminate He.
    + intros Hin. apply list_elem_of_fmap in Hin as [e [He _]]. discriminate He.
  - intros Hin. exact (Hneq _ Hin eq_refl).
  - split; [| split]; cbn [nodes edges].
    + apply NoDup_fmap_2; [intros x y; apply Hinj | exact Hnd].
    + intros e He. apply list_elem_of_fmap in He as [e0 [-> He0]].
      destruct (Hends e0 He0) as [H1 H2]. cbn [fst snd].
      split; apply list_elem_of_fmap; eauto.
    + apply simple_fmap; assumption.
Qed.
End GraphFacts.

(** ** Third variant: well-formed graphs and trees of gates *)

Module GraphTrees.
Import Graph GraphWf GraphFacts.

Lemma simple_app (es fs : list (string * string)) :
  simple es -> simple fs ->
  (forall e, e ∈ es -> (e ∉ fs) /\ ((e.2, e.1) ∉ fs)) ->
  simple (es ++ fs).
Proof.
  intros [Hnd1 Hs1] [Hnd2 Hs2] Hapart. split.
  - apply NoDup_app. split; [exact Hnd1 | split; [| exact Hnd2]].
    intros e He. apply (Hapart e He).
  - rewrite Forall_forall in Hs1, Hs2. apply Forall_forall.
    intros e He Hrev. apply elem_of_app in He, Hrev.
    destruct He as [He | He], Hrev as [Hrev | Hrev].
    + exact (Hs1 e He Hrev).
    + destruct (Hapart e He) as [_ Hno]. contradiction.
    + destruct (Hapart _ Hrev) as [_ Hno]. cbn in Hno.
      destruct e as [u v]. contradiction.
    + exact (Hs2 e He Hrev).
Qed.

Lemma merge_apart (g k : circuit) :
  wf g -> wf k -> (forall n, n ∈ nodes g -> n ∉ nodes k) ->
  merge g k = {| nodes := nodes g ++ nodes k; edges := edges g ++ edges k |}.
Proof.
  intros (Hndg & Hendg & Hsg) (Hndk & Hendk & Hsk) Hapart. unfold merge.
  rewrite (add_nodes_fresh (nodes g) empty) by exact Hndg.
  change (nodes empty ++ nodes g) with (nodes g). change (edges empty) with (@nil (string * string)).
  rewrite (add_nodes_fresh (nodes k) {| nodes := nodes g; edges := [] |})
    by (cbn; apply NoDup_app; split; [exact Hndg | split; [exact Hapart | exact Hndk]]).
  cbn [nodes edges].
  rewrite (add_edges_fresh (edges g) {| nodes := nodes g ++ nodes k; edges := [] |});
    cbn [nodes edges app].
  - rewrite (add_edges_fresh (edges k) {| nodes := nodes g ++ nodes k; edges := edges g |});
      cbn [nodes edges app]; [reflexivity | |].
    + intros e He. destruct (Hendk e He). split; apply elem_of_app; right; assumption.
    + apply simple_app; [exact Hsg | exact Hsk |].
      intros e He. destruct (Hendg e He) as [H1 H2]. split; intros Hin.
      * destruct (Hendk e Hin) as [H1' _]. exact (Hapart _ H1 H1').
      * destruct (Hendk _ Hin) as [_ H1']. exact (Hapart _ H1 H1').
  - intros e He. destruct (Hendg e He). split; apply elem_of_app; left; assumption.
  - exact Hsg.
Qed.

Lemma relabel_keeps_wf (p : string) (g : circuit) :
  wf g ->
  wf {| nodes := (fun x => p +:+ x) <$> nodes g;
        edges := (fun e => (p +:+ e.1, p +:+ e.2)) <$> edges g |}.
Proof.
  intros (Hnd & Hends & Hs). split; [| split]; cbn [nodes edges].
  - apply NoDup_fmap_2; [intros x y; apply prefix_inj | exact Hnd].
  - intros e He. apply list_elem_of_fmap in He as [e0 [-> He0]].
    destruct (Hends e0 He0) as [H1 H2]. cbn [fst snd].
    split; apply list_elem_of_fmap; eauto.
  - apply (simple_fmap (fun x => p +:+ x)); [intros x y; apply prefix_inj | exact Hs].
Qed.

(** *** The operations of [Graph] keep a graph well-formed *)

Lemma empty_wf : wf empty.
Proof.
  split; [apply NoDup_nil_2 | split].
  - intros e He. apply elem_of_nil in He. contradiction.
  - split; [apply NoDup_nil_2 | constructor].
Qed.

Lemma add_node_nodes (g : circuit) (n m : string) :
  m ∈ nodes (add_node g n) <-> m ∈ nodes g \/ m = n.
Proof.
  unfold add_node. destruct (bool_decide (n ∈ nodes g)) eqn:Hn.
  - apply bool_decide_eq_true_1 in Hn.
    split; [auto | intros [H | Heq]; [exact H | rewrite Heq; exact Hn]].
  - cbn. rewrite elem_of_app, list_elem_of_singleton. reflexivity.
Qed.

Lemma add_node_wf (g : circuit) (n : string) : wf g -> wf (add_node g n).
Proof.
  intros (Hnd & Hends & Hs). unfold add_node.
  destruct (bool_decide (n ∈ nodes g)) eqn:Hn; [exact (conj Hnd (conj Hends Hs)) |].
  apply bool_decide_eq_false_1 in Hn.
  split; [| split]; cbn [nodes edges].
  - apply NoDup_app. split; [exact Hnd | split; [| apply NoDup_singleton]].
    intros x Hx Hx'. apply list_elem_of_singleton in Hx' as ->. contradiction.
  - intros e He. destruct (Hends e He). split; apply elem_of_app; left; assumption.
  - exact Hs.
Qed.

Lemma add_edge_wf (g : circuit) (e : string * string) : wf g -> wf (add_edge g e).
Proof.
  intros Hwf. unfold add_edge.
  pose proof (add_node_wf _ e.2 (add_node_wf g e.1 Hwf)) as Hwf'.
  set (g' := add_node (add_node g e.1) e.2) in *.
  assert (e.1 ∈ nodes g' /\ e.2 ∈ nodes g') as [H1 H2].
  { subst g'. rewrite !add_node_nodes. auto. }
  unfold has_edge. destruct (bool_decide ((e.1, e.2) ∈ edges g')) eqn:Hin; [exact Hwf' |].
  destruct (bool_decide ((e.2, e.1) ∈ edges g')) eqn:Hrev; [exact Hwf' |].
  apply bool_decide_eq_false_1 in Hin, Hrev. cbn [orb].
  destruct Hwf' as (Hnd & Hends & Hs).
  split; [exact Hnd | split]; cbn [nodes edges].
  - intros x Hx. apply elem_of_app in Hx as [Hx | Hx]; [exact (Hends x Hx) |].
    apply list_elem_of_singleton in Hx as ->. split; assumption.
  - apply simple_app; [exact Hs | |].
    + split; [apply NoDup_singleton |]. constructor; [| constructor].
      intros Hx. apply list_elem_of_singleton in Hx.
      apply (f_equal fst) in Hx. cbn in Hx. symmetry. exact Hx.
    + intros x Hx. split; intros Hx'; apply list_elem_of_singleton in Hx'.
      * subst x. apply Hin. destruct e. exact Hx.
      * apply Hrev. rewrite <- Hx'. destruct x. exact Hx.
Qed.

Lemma add_nodes_wf (ns : list string) (g : circuit) : wf g -> wf (foldl add_node g ns).
Proof.
  revert g. induction ns as [| n ns IH]; intros g Hwf; [exact Hwf |].
  cbn. apply IH, add_node_wf, Hwf.
Qed.

Lemma add_edges_wf (es : list (string * string)) (g : circuit) :
  wf g -> wf (foldl add_edge g es).
Proof.
  revert g. induction es as [| e es IH]; intros g Hwf; [exact Hwf |].
  cbn. apply IH, add_edge_wf, Hwf.
Qed.

Lemma leaf_wf (a : string) : wf (leaf a).
Proof. apply add_nodes_wf, empty_wf. Qed.

Lemma relabel_is_wf (f : string -> string) (g : circuit) : wf (relabel f g).
Proof. apply add_edges_wf, add_nodes_wf, empty_wf. Qed.

Lemma merge_wf (g k : circuit) : wf (merge g k).
Proof. do 2 apply add_edges_wf. do 2 apply add_nodes_wf. apply empty_wf. Qed.

(** *** The graph of a binary operator *)

Lemma junction_built (label : string) (g k : circuit) (rg rk : string) :
  label = "$\vee$" \/ label = "$\wedge$" ->
  wf g -> wf k -> rg ∈ nodes g -> rk ∈ nodes k ->
  foldl add_edge
    (merge (leaf label)
       (merge (relabel (fun x => "l-" +:+ x) g) (relabel (fun x => "r-" +:+ x) k)))
    [(label, "l-" +:+ rg); (label, "r-" +:+ rk)]
  = junction label g k rg rk.
Proof.
  intros Hlabel Hg Hk Hrg Hrk.
  assert (forall p x y, (fun x => p +:+ x) x = (fun x => p +:+ x) y -> x = y) as Hinj
    by (intros p x y; apply prefix_inj).
  pose proof (relabel_is_wf (fun x => "l-" +:+ x) g) as Hg'.
  pose proof (relabel_is_wf (fun x => "r-" +:+ x) k) as Hk'.
  pose proof (merge_wf (relabel (fun x => "l-" +:+ x) g) (relabel (fun x => "r-" +:+ x) k))
    as Hm.
  assert (label ∉ nodes (merge (relabel (fun x => "l-" +:+ x) g)
                           (relabel (fun x => "r-" +:+ x) k))) as Htop.
  { intros Hin. pose proof (top_apart label g k Hlabel) as Hmeet.
    unfold meets in Hmeet. rewrite leaf_eq in Hmeet. cbn in Hmeet.
    rewrite bool_decide_eq_true_2 in Hmeet by exact Hin. discriminate. }
  rewrite (merge_leaf label _ Htop Hm).
  revert Hm Htop.
  rewrite merge_apart; [| exact Hg' | exact Hk' |].
  2:{ intros n Hn Hn'. pose proof (sides_apart g k) as Hmeet.
      unfold meets in Hmeet. apply not_true_iff_false in Hmeet. apply Hmeet.
      apply existsb_exists. exists n. split; [apply list_elem_of_In; exact Hn |].
      apply bool_decide_eq_true_2. exact Hn'. }
  rewrite (relabel_wf (fun x => "l-" +:+ x) g (Hinj "l-") Hg) in *.
  rewrite (relabel_wf (fun x => "r-" +:+ x) k (Hinj "r-") Hk) in *.
  cbn [nodes edges]. intros Hm Htop.
  destruct Hg as (_ & Hendg & _), Hk as (_ & Hendk & _).
  assert (forall e : string * string,
            e ∈ ((fun e => ("l-" +:+ e.1, "l-" +:+ e.2)) <$> edges g)
                ++ ((fun e => ("r-" +:+ e.1, "r-" +:+ e.2)) <$> edges k) ->
            e.1 <> label /\ e.2 <> label) as Hno.
  { intros e He. apply elem_of_app in He as [He | He];
      apply list_elem_of_fmap in He as [e0 [-> _]]; cbn [fst snd];
      destruct Hlabel as [-> | ->]; split; discriminate. }
  cbn [foldl].
  rewrite (add_edge_fresh _ (label, "l-" +:+ rg)); cbn [nodes edges fst snd].
  - rewrite (add_edge_fresh _ (label, "r-" +:+ rk)); cbn [nodes edges fst snd].
    + unfold junction. f_equal. rewrite <- !app_assoc. reflexivity.
    + left.
    + right. apply elem_of_app. right. apply list_elem_of_fmap.
      exists rk. split; [reflexivity | exact Hrk].
    + intros Hin. apply elem_of_app in Hin as [Hin | Hin].
      * destruct (Hno _ Hin) as [H _]. apply H. reflexivity.
      * apply list_elem_of_singleton in Hin. discriminate Hin.
    + intros Hin. apply elem_of_app in Hin as [Hin | Hin].
      * destruct (Hno _ Hin) as [_ H]. apply H. reflexivity.
      * apply list_elem_of_singleton in Hin. destruct Hlabel as [-> | ->]; discriminate Hin.
  - left.
  - right. apply elem_of_app. left. apply list_elem_of_fmap.
    exists rg. split; [reflexivity | exact Hrg].
  - intros Hin. destruct (Hno _ Hin) as [H _]. apply H. reflexivity.
  - intros Hin. destruct (Hno _ Hin) as [_ H]. apply H. reflexivity.
Qed.

Lemma negation_wf (g : circuit) (root : string) :
  wf g -> root ∈ nodes g -> wf (negation g root).
Proof.
  intros Hg Hroot. rewrite <- (negation_built g root Hg Hroot).
  apply add_edges_wf, merge_wf.
Qed.

Lemma junction_wf (label : string) (g k : circuit) (rg rk : string) :
  label = "$\vee$" \/ label = "$\wedge$" ->
  wf g -> wf k -> rg ∈ nodes g -> rk ∈ nodes k ->
  wf (junction label g k rg rk).
Proof.
  intros Hlabel Hg Hk Hrg Hrk. rewrite <- (junction_built label g k rg rk) by assumption.
  apply add_edges_wf, merge_wf.
Qed.

(** *** Trees of gates *)

Lemma graph_of_head (t : Paths.tree) :
  Paths.gates t -> head (nodes (graph_of t)) = Some (Paths.top t).
Proof.
  destruct t as [a | a t1 | a l r]; cbn; [reflexivity | | reflexivity].
  intros [-> _]. reflexivity.
Qed.

Lemma graph_of_top (t : Paths.tree) :
  Paths.gates t -> Paths.top t ∈ nodes (graph_of t).
Proof.
  intros Ht. pose proof (graph_of_head t Ht) as Hhead.
  destruct (nodes (graph_of t)) as [| n ns]; [discriminate |].
  injection Hhead as ->. left.
Qed.

Lemma graph_of_wf (t : Paths.tree) : Paths.gates t -> wf (graph_of t).
Proof.
  induction t as [a | a t1 IH | a l IHl r IHr]; cbn [Paths.gates graph_of].
  - intros _. rewrite <- leaf_eq. apply leaf_wf.
  - intros [_ Ht1]. apply negation_wf; [apply IH, Ht1 | apply graph_of_top, Ht1].
  - intros (Ha & Hl & Hr).
    apply junction_wf; auto using graph_of_top.
Qed.

(** The store only grows when a tree is built, and the value is the
    graph of the tree. *)
Lemma build_graph_of (t : Paths.tree) (h : list circuit) :
  Paths.gates t ->
  exists r ext,
    Paths.build t h = (Ok r, h ++ ext) /\ (h ++ ext) !! r = Some (graph_of t).
Proof.
  revert h. induction t as [a | a t1 IH | a l IHl r IHr]; intros h;
    cbn [Paths.gates Paths.build graph_of].
  - intros _. exists (length h + 0), [leaf a]. split.
    + pose proof (init_some_at h [] a) as Hinit.
      rewrite app_nil_r in Hinit. exact Hinit.
    + rewrite leaf_eq. apply lookup_at. reflexivity.
  - intros [_ Ht1].
    destruct (IH h Ht1) as (c & e1 & Hrun & Hc).
    unfold bind. rewrite Hrun.
    rewrite (rsub_at (h ++ e1) c (graph_of t1) (PyInt 1) Hc eq_refl (neg_apart _)).
    pose proof (graph_of_head t1 Ht1) as Hhead.
    destruct (nodes (graph_of t1)) as [| s0 ns] eqn:Hnodes; [discriminate |].
    injection Hhead as ->.
    rewrite (negation_built (graph_of t1) (Paths.top t1)
               (graph_of_wf t1 Ht1) (graph_of_top t1 Ht1)).
    eexists _, (e1 ++ [_; _; _; _]). split.
    + rewrite app_assoc. reflexivity.
    + rewrite app_assoc. apply lookup_at. reflexivity.
  - intros (Ha & Hl & Hr).
    destruct (IHl h Hl) as (c & e1 & Hrunl & Hc).
    destruct (IHr (h ++ e1) Hr) as (d & e2 & Hrunr & Hd).
    unfold bind. rewrite Hrunl, Hrunr.
    assert (((h ++ e1) ++ e2) !! c = Some (graph_of l)) as Hc'
      by (apply lookup_app_l_Some; exact Hc).
    assert ((if bool_decide (a = "$\vee$") then __or__ c d else __and__ c d)
            = binary a c d) as ->.
    { destruct Ha as [-> | ->]; reflexivity. }
    rewrite (binary_at a ((h ++ e1) ++ e2) c d _ _ Hc' Hd
               (sides_apart _ _) (top_apart a _ _ Ha)).
    pose proof (graph_of_head l Hl) as Hheadl.
    pose proof (graph_of_head r Hr) as Hheadr.
    destruct (nodes (graph_of l)) as [| s0 ns] eqn:Hnl; [discriminate |].
    destruct (nodes (graph_of r)) as [| o0 ms] eqn:Hnr; [discriminate |].
    injection Hheadl as ->. injection Hheadr as ->.
    pose proof (junction_built a (graph_of l) (graph_of r) (Paths.top l) (Paths.top r) Ha
                  (graph_of_wf l Hl) (graph_of_wf r Hr)
                  (graph_of_top l Hl) (graph_of_top r Hr)) as Hbuilt.
    rewrite Hbuilt.
    eexists _, (e1 ++ e2 ++ [_; _; _; _; _]). split.
    + rewrite !app_assoc. reflexivity.
    + rewrite !app_assoc. apply lookup_at. reflexivity.
Qed.

Lemma graph_of_nodes (t : Paths.tree) :
  Paths.gates t -> nodes (graph_of t) = map Paths.name (Paths.places t).
Proof.
  induction t as [a | a t1 IH | a l IHl r IHr]; cbn [Paths.gates graph_of Paths.places].
  - reflexivity.
  - intros [-> Ht1]. cbn [negation nodes map]. rewrite (IH Ht1), !List.map_map. reflexivity.
  - intros (_ & Hl & Hr). cbn [junction nodes map].
    rewrite (IHl Hl), (IHr Hr), List.map_app, !List.map_map. reflexivity.
Qed.

Lemma graph_of_edges (t : Paths.tree) :
  Paths.gates t -> edges (graph_of t) = Paths.wires t.
Proof.
  induction t as [a | a t1 IH | a l IHl r IHr]; cbn [Paths.gates graph_of Paths.wires].
  - reflexivity.
  - intros [-> Ht1]. cbn [negation edges]. rewrite (IH Ht1). reflexivity.
  - intros (_ & Hl & Hr). cbn [junction edges]. rewrite (IHl Hl), (IHr Hr). reflexivity.
Qed.

(** Every tree of gates, built with the operators, is a graph whose
    nodes are the places of the tree under their names, the output
    first, and whose edges are its wires. *)
Theorem build_names_places (t : Paths.tree) (h : list circuit) :
  Paths.gates t ->
  exists r h' g,
    Paths.build t h = (Ok r, h')
    /\ h' !! r = Some g
    /\ nodes g = map Paths.name (Paths.places t)
    /\ edges g = Paths.wires t
    /\ wf g.
Proof.
  intros Ht. destruct (build_graph_of t h Ht) as (r & ext & Hrun & Hr).
  exists r, (h ++ ext), (graph_of t).
  split; [exact Hrun | split; [exact Hr |]].
  split; [apply graph_of_nodes, Ht | split; [apply graph_of_edges, Ht | apply graph_of_wf, Ht]].
Qed.
End GraphTrees.

(** ** C2: subtraction from a value other than [1] *)






(** ** C4: the operators leave their operands as they were *)

Lemma graph_or_binary : Graph.__or__ = Graph.binary "$\vee$".
Proof. reflexivity. Qed.

Lemma graph_and_binary : Graph.__and__ = Graph.binary "$\wedge$".
Proof. reflexivity. Qed.

Lemma graph_binary_frame (label : string) (h : list Graph.circuit) (c d : loc)
    (g k : Graph.circuit) :
  label = "$\vee$" \/ label = "$\wedge$" ->
  h !! c = Some g -> h !! d = Some k ->
  keeps h (Graph.binary label c d h)
  /\ (Graph.nodes g <> [] -> Graph.nodes k <> [] -> returns_new h (Graph.binary label c d h)).
Proof.
  intros Hlabel Hc Hd.
  rewrite (GraphFacts.binary_at label h c d g k Hc Hd
             (GraphFacts.sides_apart g k) (GraphFacts.top_apart label g k Hlabel)).
  destruct (Graph.nodes g) as [| s0 ns], (Graph.nodes k) as [| o0 ms];
    (split; [apply appended_keeps |]); intros Hg Hk; try contradiction.
  apply (appended_returns_new h _ _ 4); [reflexivity | cbn; lia].
Qed.

Lemma graph_rsub_frame (h : list Graph.circuit) (c : loc) (g : Graph.circuit) :
  h !! c = Some g ->
  keeps h (Graph.__rsub__ c (PyInt 1) h)
  /\ (Graph.nodes g <> [] -> returns_new h (Graph.__rsub__ c (PyInt 1) h)).
Proof.
  intros Hc.
  rewrite (GraphFacts.rsub_at h c g (PyInt 1) Hc eq_refl (GraphFacts.neg_apart g)).
  destruct (Graph.nodes g) as [| s0 ns];
    (split; [apply appended_keeps |]); intros Hg; try contradiction.
  apply (appended_returns_new h _ _ 1); [reflexivity | cbn; lia].
Qed.

(** C4 (amended). In the first and second variants [c | d], [c & d] and
    [1 - c] return a new object and leave every object of the store, so
    both operands, as it was. In the third variant they leave every
    object as it was, and return a new graph when the graphs of the
    operands have a node. *)
Theorem operators_frame
    (hT : Tagged.heap) (hD : Dict.heap) (hG : list Graph.circuit)
    (c d : loc) (g k : Graph.circuit) :
  hG !! c = Some g -> hG !! d = Some k ->
  Forall (fun out => returns_new hT out /\ keeps hT out)
    [Tagged.__or__ c d hT; Tagged.__and__ c d hT; Tagged.__rsub__ c (PyInt 1) hT]
  /\ Forall (fun out => returns_new hD out /\ keeps hD out)
       [Dict.__or__ c d hD; Dict.__and__ c d hD; Dict.__rsub__ c (PyInt 1) hD]
  /\ Forall (fun out =>
               keeps hG out
               /\ (Graph.nodes g <> [] -> Graph.nodes k <> [] -> returns_new hG out))
       [Graph.__or__ c d hG; Graph.__and__ c d hG]
  /\ keeps hG (Graph.__rsub__ c (PyInt 1) hG)
  /\ (Graph.nodes g <> [] -> returns_new hG (Graph.__rsub__ c (PyInt 1) hG)).
Proof.
  intros Hc Hd. split; [| split].
  - rewrite tagged_or_run, tagged_and_run, tagged_rsub_run. cbn [isinstance_int ne_one negb orb Z.eqb Pos.eqb].
    repeat (constructor;
            [split; [apply (appended_returns_new _ _ _ 0); [lia | cbn; lia] | apply appended_keeps] |]).
    constructor.
  - rewrite dict_or_run, dict_and_run, dict_rsub_run. cbn [isinstance_int ne_one negb orb Z.eqb Pos.eqb].
    repeat (constructor;
            [split; [apply (appended_returns_new _ _ _ 0); [lia | cbn; lia] | apply appended_keeps] |]).
    constructor.
  - rewrite graph_or_binary, graph_and_binary.
    split; [| exact (graph_rsub_frame hG c g Hc)].
    constructor; [apply (graph_binary_frame "$\vee$" hG c d g k); auto |].
    constructor; [apply (graph_binary_frame "$\wedge$" hG c d g k); auto |].
    constructor.
Qed.

Lemma operators_frame_witness :
  let x := {| Graph.nodes := ["$x_0$"]; Graph.edges := [] |} in
  let y := {| Graph.nodes := ["$y_0$"]; Graph.edges := [] |} in
  ([x; y] !! 0 = Some x /\ [x; y] !! 1 = Some y)
  /\ returns_new [x; y] (Graph.__or__ 0 1 [x; y])
  /\ unchanged [x; y] (Graph.__or__ 0 1 [x; y]) 0
  /\ unchanged [x; y] (Graph.__or__ 0 1 [x; y]) 1.
Proof.
  intros x y.
  assert ([x; y] !! 0 = Some x) as Hc by reflexivity.
  assert ([x; y] !! 1 = Some y) as Hd by reflexivity.
  split; [split; [exact Hc | exact Hd] |].
  pose proof (proj1 (proj2 (proj2 (operators_frame [] [] [x; y] 0 1 x y Hc Hd)))) as HG.
  apply Forall_cons in HG as [[Hkeep Hnew] _].
  split; [apply Hnew; discriminate |].
  split; apply Hkeep; cbn; lia.
Defined.

(** The claim as it stands fails on the third variant:
    [circuit() | circuit()], on two graphs without nodes, raises
    [IndexError] and returns no circuit. *)
Lemma graph_or_of_empty_raises :
  ((c <- Graph.__init__ None ;; d <- Graph.__init__ None ;; Graph.__or__ c d) []).1
  = Raise IndexError.
Proof. vm_compute. reflexivity. Qed.

(** * Further properties of the code *)

(** * Further properties *)

(** ** The loop that the second [equals] replaces *)

Section loop_facts.
Context {S V : Type} `{!Overloaded S V} `{!IntAnd S V}.

Lemma foldM_app {A B} (f : A -> B -> M S A) (l1 l2 : list B) (a : A) (s : S) :
  foldM f a (l1 ++ l2) s = (a' <- foldM f a l1 ;; foldM f a' l2) s.
Proof.
  revert a s. induction l1 as [| x l1 IH]; intros a s; [reflexivity |].
  cbn [app foldM]. unfold bind in *.
  destruct (f a x s) as [[a' | e] s']; [apply IH | reflexivity].
Qed.

Lemma loop_zip (xs ys : list V) (n k : nat) (z : acc V) (s : S) :
  k + n <= length xs -> k + n <= length ys ->
  foldM (loop_body xs ys) z (seq k n) s
  = foldM turn z (zip (take n (drop k xs)) (take n (drop k ys))) s.
Proof.
  revert k z s. induction n as [| n IH]; intros k z s Hx Hy; [reflexivity |].
  destruct (lookup_lt_is_Some_2 xs k ltac:(lia)) as [x Hxk].
  destruct (lookup_lt_is_Some_2 ys k ltac:(lia)) as [y Hyk].
  rewrite (drop_S _ _ _ Hxk), (drop_S _ _ _ Hyk).
  cbn [seq take zip foldM].
  unfold loop_body at 1, turn at 1. unfold getitem. rewrite Hxk, Hyk.
  unfold bind, ret. cbn [fst snd].
  destruct (equal x y s) as [[e | err] s1]; [| reflexivity].
  destruct (acc_and z e s1) as [[z' | err] s2]; [| reflexivity].
  apply IH; lia.
Qed.

(** X1. When [ys] is at least as long as [xs], the loop reads the first
    [len(xs)] items of [ys] only: the rest of [ys] changes nothing. *)
Theorem equals_loop_surplus (xs ys : list V) (s : S) :
  length xs <= length ys ->
  equals_loop xs ys s = equals_loop xs (take (length xs) ys) s.
Proof.
  intros Hlen. unfold equals_loop.
  rewrite (loop_zip xs ys (length xs) 0) by lia.
  rewrite (loop_zip xs (take (length xs) ys) (length xs) 0)
    by (rewrite ?length_take; lia).
  rewrite !drop_0, take_take, Nat.min_id. reflexivity.
Qed.
End loop_facts.

Lemma equals_loop_surplus_witness :
  length [1; 0]%Z <= length [1; 0; 1]%Z
  /\ equals_loop [1; 0]%Z [1; 0; 1]%Z tt = equals_loop [1; 0]%Z [1; 0]%Z tt.
Proof.
  assert (length [1; 0]%Z <= length [1; 0; 1]%Z) as H by (cbn; lia).
  split; [exact H |].
  exact (equals_loop_surplus [1; 0]%Z [1; 0; 1]%Z tt H).
Defined.

Section loop_int_facts.
Local Open Scope Z_scope.

Lemma turn_int (z : acc Z) (p : Z * Z) :
  turn z p tt
  = (Ok (Val (Z.land (int_of z) (Z.lor (Z.land p.1 p.2) (Z.land (1 - p.1) (1 - p.2))))), tt).
Proof. destruct z; reflexivity. Qed.

Lemma foldM_turn_int (ps : list (Z * Z)) (z : acc Z) :
  exists z', foldM turn z ps tt = (Ok z', tt).
Proof.
  revert z. induction ps as [| p ps IH]; intros z; [eexists; reflexivity |].
  cbn [foldM]. unfold bind. rewrite turn_int. apply IH.
Qed.

Lemma foldM_turn_bits (xs ys : list Z) (z : acc Z) :
  Forall is_bit xs -> Forall is_bit ys -> is_bit (int_of z) ->
  exists z',
    foldM turn z (zip xs ys) tt = (Ok z', tt)
    /\ int_of z'
       = if (int_of z =? 1)
            && forallb (Z.eqb 1) (map (fun p => if p.1 =? p.2 then 1 else 0) (zip xs ys))
         then 1 else 0.
Proof.
  intros Hxs. revert ys z. induction Hxs as [| x xs Hx _ IH]; intros ys z Hys Hz.
  - exists z. split; [reflexivity |]. cbn. destruct Hz as [-> | ->]; reflexivity.
  - destruct Hys as [| y ys Hy Hys].
    + exists z. split; [reflexivity |]. cbn. destruct Hz as [-> | ->]; reflexivity.
    + cbn [zip foldM map forallb]. unfold bind. rewrite turn_int. cbn [fst snd].
      destruct (IH ys (Val (Z.land (int_of z)
                  (Z.lor (Z.land x y) (Z.land (1 - x) (1 - y))))) Hys) as (z' & Hrun & Hz').
      { cbn. destruct Hz as [-> | ->], Hx as [-> | ->], Hy as [-> | ->];
          ((left; reflexivity) || (right; reflexivity)). }
      exists z'. split; [exact Hrun |]. rewrite Hz'. cbn [int_of].
      destruct Hz as [-> | ->], Hx as [-> | ->], Hy as [-> | ->]; reflexivity.
Qed.
End loop_int_facts.

(** X2. On bit lists of one length the loop returns [1] when the lists
    are equal item by item and [0] when they are not, two empty lists
    included; on non-empty lists the second definition of [equals]
    returns the same integer. *)
Theorem equals_loop_decides (xs ys : list Z) :
  Forall is_bit xs -> Forall is_bit ys -> length xs = length ys ->
  exists z,
    equals_loop xs ys tt = (Ok z, tt)
    /\ int_of z = (if bool_decide (xs = ys) then 1 else 0)%Z
    /\ (xs <> [] -> equals xs ys tt = (Ok (int_of z), tt)).
Proof.
  intros Hxs Hys Hlen. unfold equals_loop.
  rewrite (loop_zip xs ys (length xs) 0) by lia.
  rewrite !drop_0, firstn_all, Hlen, firstn_all.
  destruct (foldM_turn_bits xs ys (Lit 1) Hxs Hys) as (z & Hrun & Hz); [right; reflexivity |].
  exists z. split; [exact Hrun |].
  assert (int_of z = (if bool_decide (xs = ys) then 1 else 0)%Z) as Hdec.
  { rewrite Hz. cbn [int_of Z.eqb Pos.eqb andb].
    pose proof (flags_all_one xs ys Hlen) as Hall.
    destruct (forallb _ _).
    - rewrite bool_decide_eq_true_2 by (apply Hall; reflexivity). reflexivity.
    - rewrite bool_decide_eq_false_2; [reflexivity |].
      intros Heq. apply Hall in Heq. discriminate. }
  split; [exact Hdec |].
  intros Hne. rewrite Hdec. apply equals_bits; assumption.
Qed.

Lemma equals_loop_decides_witness :
  (Forall is_bit [0; 1]%Z /\ Forall is_bit [0; 0]%Z /\ length [0; 1]%Z = length [0; 0]%Z)
  /\ exists z, equals_loop [0; 1]%Z [0; 0]%Z tt = (Ok z, tt) /\ int_of z = 0%Z.
Proof.
  assert (Forall is_bit [0; 1]%Z) as H1
    by (repeat constructor; ((left; reflexivity) || (right; reflexivity))).
  assert (Forall is_bit [0; 0]%Z) as H2
    by (repeat constructor; ((left; reflexivity) || (right; reflexivity))).
  split; [split; [exact H1 | split; [exact H2 | reflexivity]] |].
  destruct (equals_loop_decides [0; 1]%Z [0; 0]%Z H1 H2 eq_refl) as (z & Hrun & Hz & _).
  exists z. split; [exact Hrun | exact Hz].
Defined.

(** X3. On integers, when [ys] is shorter than [xs] the loop raises
    [IndexError], at [ys[len(ys)]]. *)
Theorem equals_loop_short (xs ys : list Z) :
  length ys < length xs ->
  (equals_loop xs ys tt).1 = Raise IndexError.
Proof.
  intros Hlen. unfold equals_loop.
  replace (length xs) with (length ys + S (length xs - S (length ys))) by lia.
  rewrite seq_app, foldM_app. unfold bind at 1.
  rewrite (loop_zip xs ys (length ys) 0) by lia.
  destruct (foldM_turn_int (zip (take (length ys) (drop 0 xs)) (take (length ys) (drop 0 ys)))
              (Lit 1)) as [z Hrun].
  rewrite Hrun. cbn [seq foldM]. unfold bind at 1. unfold loop_body.
  destruct (lookup_lt_is_Some_2 xs (0 + length ys) ltac:(lia)) as [x Hx].
  unfold bind at 1. unfold getitem at 1. rewrite Hx. cbn [ret].
  unfold bind at 1. unfold getitem at 1.
  rewrite (lookup_ge_None_2 ys (0 + length ys)) by lia. reflexivity.
Qed.

Lemma equals_loop_short_witness :
  length [1]%Z < length [1; 0]%Z
  /\ (equals_loop [1; 0]%Z [1]%Z tt).1 = Raise IndexError.
Proof.
  assert (length [1]%Z < length [1; 0]%Z) as H by (cbn; lia).
  split; [exact H |].
  exact (equals_loop_short [1; 0]%Z [1]%Z H).
Defined.

(** X4. On circuits of the first and of the second variant the loop
    raises [TypeError] as soon as [xs] and [ys] have an item: its first
    turn evaluates [1 & equal(xs[0], ys[0])], with the integer on the
    left, and neither class defines [__rand__]. *)
Theorem equals_loop_circuits_raise (xs ys : list loc)
    (hT : Tagged.heap) (hD : Dict.heap) :
  xs <> [] -> ys <> [] ->
  (equals_loop xs ys hT).1 = Raise TypeError
  /\ (equals_loop xs ys hD).1 = Raise TypeError.
Proof.
  intros Hxs Hys.
  destruct xs as [| x xs]; [contradiction |]. destruct ys as [| y ys]; [contradiction |].
  split; reflexivity.
Qed.

Lemma equals_loop_circuits_raise_witness :
  ([0] <> ([] : list loc) /\ [0] <> ([] : list loc))
  /\ (equals_loop (S := Tagged.heap) [0] [0]
        [{| Tagged.op := "bit"; Tagged.args := Tagged.ArgsInt 0 |}]).1 = Raise TypeError.
Proof.
  assert ([0] <> ([] : list loc)) as H by discriminate.
  split; [split; exact H |].
  exact (proj1 (equals_loop_circuits_raise [0] [0]
                  [{| Tagged.op := "bit"; Tagged.args := Tagged.ArgsInt 0 |}] [] H H)).
Defined.

(** ** Symmetry *)

Lemma equal_int_comm (x y : Z) : equal x y tt = equal y x tt.
Proof.
  unfold equal, bind. cbn.
  rewrite (Z.land_comm x y), (Z.land_comm (1 - x) (1 - y)). reflexivity.
Qed.

Lemma mapM_equal_comm (xs ys : list Z) :
  mapM (fun p => equal p.1 p.2) (zip xs ys) tt
  = mapM (fun p => equal p.1 p.2) (zip ys xs) tt.
Proof.
  revert ys. induction xs as [| x xs IH]; intros [| y ys]; try reflexivity.
  cbn [zip mapM fst snd]. unfold bind at 1 3. cbn [fst snd].
  rewrite (equal_int_comm x y). destruct (equal y x tt) as [[e | err] []]; [| reflexivity].
  unfold bind. rewrite IH. reflexivity.
Qed.

(** X5. On integers, bits or not, [equals] does not depend on the order
    of its two arguments. *)
Theorem equals_int_comm (xs ys : list Z) :
  equals xs ys tt = equals ys xs tt.
Proof. unfold equals, bind. rewrite mapM_equal_comm. reflexivity. Qed.

(** ** Vectors *)

(** X6. [==] on vectors is symmetric and transitive, and two vectors
    with different numbers of coordinates are never equal. *)
Theorem vector_eq_equivalence {A : Type} `{EqDecision A} (u v w : Vector.vector A) :
  Vector.__eq__ u v = Vector.__eq__ v u
  /\ (Vector.__eq__ u v = true -> Vector.__eq__ v w = true -> Vector.__eq__ u w = true)
  /\ (length (Vector.coordinates u) <> length (Vector.coordinates v) ->
      Vector.__eq__ u v = false).
Proof.
  unfold Vector.__eq__. split; [| split].
  - destruct (Vector.tuple_eqb (Vector.coordinates v) (Vector.coordinates u)) eqn:E.
    + apply tuple_eqb_eq. symmetry. apply tuple_eqb_eq. exact E.
    + apply not_true_iff_false. intros E'. apply tuple_eqb_eq in E'.
      apply not_true_iff_false in E. apply E. apply tuple_eqb_eq. symmetry. exact E'.
  - rewrite !tuple_eqb_eq. congruence.
  - intros Hlen. apply not_true_iff_false. intros E. apply tuple_eqb_eq in E.
    apply Hlen. rewrite E. reflexivity.
Qed.

Lemma vector_eq_equivalence_witness :
  let u := Vector.__init__ [1; 2]%Z in
  let v := Vector.__init__ [1; 2; 0]%Z in
  length (Vector.coordinates u) <> length (Vector.coordinates v)
  /\ Vector.__eq__ u v = false.
Proof.
  intros u v.
  assert (length (Vector.coordinates u) <> length (Vector.coordinates v)) as H by discriminate.
  split; [exact H |].
  exact (proj2 (proj2 (vector_eq_equivalence u v v)) H).
Defined.

(** ** The text of a circuit of the first variant *)

Lemma tagged_load_app (h ext : list Tagged.circuit) (l : loc) (o : Tagged.circuit) :
  h !! l = Some o -> load l (h ++ ext) = (Ok o, h ++ ext).
Proof. intros H. unfold load. rewrite (lookup_app_l_Some _ _ _ _ H). reflexivity. Qed.

(** A location below all those of a path is not on it. *)
Lemma above_fresh (l : loc) (path : list loc) :
  Forall (fun p => l < p) path -> bool_decide (l ∈ path) = false.
Proof.
  intros H. apply bool_decide_eq_false_2. intros Hin.
  rewrite Forall_forall in H. specialize (H l Hin). cbn beta in H. lia.
Qed.

Lemma above_child (a l : loc) (path : list loc) :
  a < l -> Forall (fun p => l < p) path -> Forall (fun p => a < p) (l :: path).
Proof.
  intros Ha H. constructor; [exact Ha |].
  eapply Forall_impl; [exact H |]. intros p Hp. cbn beta in *. lia.
Qed.

(** With more levels than its location, a well-shaped object has one
    text, whatever is added to the store. *)
Lemma repr_stable (h : list Tagged.circuit) :
  Shape.heap_ok h ->
  forall l, l < length h ->
  exists s, forall n (path : list loc) ext, l < n -> Forall (fun p => l < p) path ->
    Tagged.repr_fuel n path l (h ++ ext) = (Ok s, h ++ ext).
Proof.
  intros Hok l. induction l as [l IH] using lt_wf_ind. intros Hl.
  destruct (lookup_lt_is_Some_2 h l Hl) as [o Ho].
  pose proof (Hok l o Ho) as Hshape. unfold Shape.well_shaped in Hshape.
  destruct (Tagged.args o) as [z | cs] eqn:Hargs.
  - eexists. intros [| n] path ext Hn Hp; [lia |]. cbn [Tagged.repr_fuel]. unfold bind.
    rewrite (tagged_load_app h ext l o Ho), Hargs. reflexivity.
  - destruct cs as [| a [| b [| c cs]]]; [| | | discriminate].
    + eexists. intros [| n] path ext Hn Hp; [lia |]. cbn [Tagged.repr_fuel]. unfold bind.
      rewrite (tagged_load_app h ext l o Ho), Hargs. cbv beta iota.
      rewrite (above_fresh l path Hp). reflexivity.
    + apply andb_true_iff in Hshape as [_ Ha]. apply bool_decide_eq_true_1 in Ha.
      destruct (IH a Ha ltac:(lia)) as [sa Hsa].
      eexists. intros [| n] path ext Hn Hp; [lia |]. cbn [Tagged.repr_fuel]. unfold bind.
      rewrite (tagged_load_app h ext l o Ho), Hargs. cbv beta iota.
      rewrite (above_fresh l path Hp). cbn [mapM]. unfold bind.
      rewrite (Hsa n _ ext) by first [lia | exact (above_child a l path Ha Hp)].
      reflexivity.
    + apply andb_true_iff in Hshape as [Hshape Hb]. apply andb_true_iff in Hshape as [_ Ha].
      apply bool_decide_eq_true_1 in Ha, Hb.
      destruct (IH a Ha ltac:(lia)) as [sa Hsa]. destruct (IH b Hb ltac:(lia)) as [sb Hsb].
      eexists. intros [| n] path ext Hn Hp; [lia |]. cbn [Tagged.repr_fuel]. unfold bind.
      rewrite (tagged_load_app h ext l o Ho), Hargs. cbv beta iota.
      rewrite (above_fresh l path Hp). cbn [mapM]. unfold bind.
      rewrite (Hsa n _ ext) by first [lia | exact (above_child a l path Ha Hp)].
      rewrite (Hsb n _ ext) by first [lia | exact (above_child b l path Hb Hp)].
      reflexivity.
Qed.

(** The text of a new object whose operands have texts. *)
Lemma repr_new (h : list Tagged.circuit) (o : string) (cs : list loc) (n : nat) :
  Tagged.repr_fuel (S n) [] (length h) (h ++ [{| Tagged.op := o; Tagged.args := Tagged.ArgsList cs |}])
  = (ss <- mapM (Tagged.repr_fuel n [length h]) cs ;; ret (circuit_text o (list_text ss)))
      (h ++ [{| Tagged.op := o; Tagged.args := Tagged.ArgsList cs |}]).
Proof.
  cbn [Tagged.repr_fuel]. unfold bind at 1. unfold load.
  rewrite list_lookup_middle by reflexivity. cbn [Tagged.args Tagged.op].
  rewrite (above_fresh (length h) []) by constructor.
  unfold bind. destruct (mapM _ cs _) as [[ss | e] h']; reflexivity.
Qed.

(** X7. In a store built from bit constants by the operators, under an
    interpreter whose recursion limit affords more levels of nesting
    than the store has objects, [__repr__] returns a text for every
    circuit and changes nothing; the text of [c | d] is
    [circuit("or", [C, D])] for the texts [C] of [c] and [D] of [d], that
    of [c & d] is [circuit("and", [C, D])], and that of [1 - c] is
    [circuit("not", [C])]. *)
Theorem repr_composes (i : interpreter) (h : list Tagged.circuit) (c d : loc) :
  Shape.built h -> c < length h -> d < length h ->
  length h < levels i (repr_calls i) ->
  exists sc sd,
    Tagged.__repr__ i c h = (Ok sc, h)
    /\ Tagged.__repr__ i d h = (Ok sd, h)
    /\ ((r <- Tagged.__or__ c d ;; Tagged.__repr__ i r) h).1
       = Ok (circuit_text "or" (list_text [sc; sd]))
    /\ ((r <- Tagged.__and__ c d ;; Tagged.__repr__ i r) h).1
       = Ok (circuit_text "and" (list_text [sc; sd]))
    /\ ((r <- Tagged.__rsub__ c (PyInt 1) ;; Tagged.__repr__ i r) h).1
       = Ok (circuit_text "not" (list_text [sc])).
Proof.
  intros Hb Hc Hd Hn.
  assert (Shape.heap_ok h) as Hok.
  { clear c d Hc Hd Hn. induction Hb as [| h h' _ IH Hstep].
    - intros q o Hq. destruct q; discriminate Hq.
    - exact (step_preserves_shape h h' IH Hstep). }
  destruct (repr_stable h Hok c Hc) as [sc Hsc].
  destruct (repr_stable h Hok d Hd) as [sd Hsd].
  exists sc, sd. unfold Tagged.__repr__.
  destruct (levels i (repr_calls i)) as [| n]; [lia |].
  assert (Forall (fun p => c < p) [length h]) as Pc by (constructor; [exact Hc | constructor]).
  assert (Forall (fun p => d < p) [length h]) as Pd by (constructor; [exact Hd | constructor]).
  split; [pose proof (Hsc (S n) [] [] ltac:(lia) ltac:(constructor)) as H0;
          rewrite app_nil_r in H0; exact H0 |].
  split; [pose proof (Hsd (S n) [] [] ltac:(lia) ltac:(constructor)) as H0;
          rewrite app_nil_r in H0; exact H0 |].
  split; [| split].
  - unfold bind at 1. rewrite tagged_or_run, repr_new. cbn [mapM]. unfold bind.
    rewrite (Hsc n _ [_]) by first [lia | exact Pc].
    rewrite (Hsd n _ [_]) by first [lia | exact Pd]. reflexivity.
  - unfold bind at 1. rewrite tagged_and_run, repr_new. cbn [mapM]. unfold bind.
    rewrite (Hsc n _ [_]) by first [lia | exact Pc].
    rewrite (Hsd n _ [_]) by first [lia | exact Pd]. reflexivity.
  - unfold bind at 1. rewrite tagged_rsub_run. cbn [isinstance_int ne_one negb orb Z.eqb Pos.eqb].
    rewrite repr_new. cbn [mapM]. unfold bind.
    rewrite (Hsc n _ [_]) by first [lia | exact Pc]. reflexivity.
Qed.

Lemma repr_composes_witness :
  let i := {| recursion_limit := 12; in_progress := 2; repr_calls := 3; dumps_calls := 2 |} in
  let c0 := {| Tagged.op := "bit"; Tagged.args := Tagged.ArgsInt 0 |} in
  let c1 := {| Tagged.op := "bit"; Tagged.args := Tagged.ArgsInt 1 |} in
  Shape.built [c0; c1]
  /\ length [c0; c1] < levels i (repr_calls i)
  /\ ((r <- Tagged.__or__ 0 1 ;; Tagged.__repr__ i r) [c0; c1]).1
     = Ok (circuit_text "or" (list_text [circuit_text "bit" "0"; circuit_text "bit" "1"])).
Proof.
  intros i c0 c1.
  assert (Shape.built [c0; c1]) as Hb.
  { apply (Shape.built_step [c0]).
    - apply (Shape.built_step []); [apply Shape.built_nil |].
      apply (Shape.step_bit [] 0%Z 0); [left |]; reflexivity.
    - apply (Shape.step_bit [c0] 1%Z 1); [right |]; reflexivity. }
  assert (length [c0; c1] < levels i (repr_calls i)) as Hl by (vm_compute; lia).
  split; [exact Hb |]. split; [exact Hl |].
  destruct (repr_composes i [c0; c1] 0 1 Hb) as (sc & sd & Hsc & Hsd & Hor & _);
    [cbn; lia | cbn; lia | exact Hl |].
  rewrite Hor. vm_compute in Hsc, Hsd.
  injection Hsc as <-. injection Hsd as <-. reflexivity.
Defined.

(** [k] negations of a circuit of the store: the store gets [k] objects
    more, and the value has no text when at most [k] levels are left. *)
Lemma tagged_nots_deep (k : nat) (h : list Tagged.circuit) (c : loc) :
  c < length h ->
  exists r ext,
    nots (S := Tagged.heap) k c h = (Ok r, h ++ ext)
    /\ length ext = k /\ r < length (h ++ ext)
    /\ forall n (path : list loc) more, n <= k -> Forall (fun p => r < p) path ->
         Tagged.repr_fuel n path r ((h ++ ext) ++ more)
         = (Raise RecursionError, (h ++ ext) ++ more).
Proof.
  intros Hc. induction k as [| k IH].
  - exists c, []. rewrite app_nil_r.
    split; [reflexivity |]. split; [reflexivity |]. split; [exact Hc |].
    intros n path more Hn _. replace n with 0 by lia. reflexivity.
  - destruct IH as (r & ext & Hrun & Hlen & Hr & Hdeep).
    exists (length (h ++ ext)),
      (ext ++ [{| Tagged.op := "not"; Tagged.args := Tagged.ArgsList [r] |}]).
    rewrite (app_assoc h ext).
    split.
    { cbn [nots]. unfold bind. rewrite Hrun. cbn [one_minus Tagged.ops].
      rewrite tagged_rsub_run. reflexivity. }
    split; [rewrite length_app, Hlen; cbn; lia |].
    split; [rewrite (length_app (h ++ ext)); cbn; lia |].
    intros [| n] path more Hn Hp; [reflexivity |].
    cbn [Tagged.repr_fuel]. unfold bind at 1. unfold load.
    rewrite <- (app_assoc (h ++ ext)). cbn [app].
    rewrite list_lookup_middle by reflexivity. cbn [Tagged.args Tagged.op].
    rewrite (above_fresh _ path Hp). cbn [mapM]. unfold bind.
    rewrite (Hdeep n _ (_ :: more)) by
      first [lia | exact (above_child r (length (h ++ ext)) path Hr Hp)].
    reflexivity.
Qed.

(** X18. Whatever the recursion limit, a circuit of the first variant
    nested deeper than it affords has no text: [k] negations of a
    circuit are built without an exception, [k] new objects, and when
    the interpreter affords at most [k] levels [__repr__] of the result
    raises [RecursionError] and changes nothing. *)
Theorem repr_depth_limit (i : interpreter) (k : nat) (h : list Tagged.circuit) (c : loc) :
  c < length h -> levels i (repr_calls i) <= k ->
  exists r ext,
    nots (S := Tagged.heap) k c h = (Ok r, h ++ ext)
    /\ length ext = k
    /\ Tagged.__repr__ i r (h ++ ext) = (Raise RecursionError, h ++ ext).
Proof.
  intros Hc Hk.
  destruct (tagged_nots_deep k h c Hc) as (r & ext & Hrun & Hlen & _ & Hdeep).
  exists r, ext. split; [exact Hrun |]. split; [exact Hlen |].
  pose proof (Hdeep (levels i (repr_calls i)) [] [] Hk ltac:(constructor)) as H0.
  rewrite app_nil_r in H0. exact H0.
Qed.

Lemma repr_depth_limit_witness :
  let i := {| recursion_limit := 12; in_progress := 2; repr_calls := 3; dumps_calls := 2 |} in
  let c0 := {| Tagged.op := "bit"; Tagged.args := Tagged.ArgsInt 0 |} in
  (0 < length [c0] /\ levels i (repr_calls i) <= 3)
  /\ ((r <- nots (S := Tagged.heap) (V := loc) 3 0 ;; Tagged.__repr__ i r) [c0]).1 = Raise RecursionError
  /\ ((r <- nots (S := Tagged.heap) (V := loc) 2 0 ;; Tagged.__repr__ i r) [c0]).1
     = Ok (circuit_text "not" (list_text [circuit_text "not" (list_text [circuit_text "bit" "0"])])).
Proof.
  intros i c0.
  assert (0 < length [c0]) as Hc by (cbn; lia).
  assert (levels i (repr_calls i) <= 3) as Hk by (vm_compute; lia).
  split; [split; [exact Hc | exact Hk] |].
  split; [| vm_compute; reflexivity].
  destruct (repr_depth_limit i 3 [c0] 0 Hc Hk) as (r & ext & Hrun & _ & Hraise).
  unfold bind. rewrite Hrun, Hraise. reflexivity.
Defined.

(** ** [equal] and [equals] in the first two variants *)

Lemma corresponds_ret {A} (a : A) : corresponds (ret a) (ret a).
Proof. intros h. reflexivity. Qed.

Lemma corresponds_raise {A} (e : exn) : corresponds (A := A) (raise e) (raise e).
Proof. intros h. reflexivity. Qed.

Lemma corresponds_bind {A B} (m1 : M Tagged.heap A) (m2 : M Dict.heap A)
    (k1 : A -> M Tagged.heap B) (k2 : A -> M Dict.heap B) :
  corresponds m1 m2 -> (forall a, corresponds (k1 a) (k2 a)) ->
  corresponds (bind m1 k1) (bind m2 k2).
Proof.
  intros Hm Hk h. unfold bind. rewrite (Hm h).
  destruct (m1 h) as [[a | e] h1]; cbn [fst snd]; [apply Hk | reflexivity].
Qed.

Lemma corresponds_alloc (c : Tagged.circuit) :
  corresponds (alloc c) (alloc (Homomorphism.to_dict c)).
Proof.
  intros h. unfold alloc. cbn [fst snd].
  rewrite length_fmap, fmap_snoc_to_dict. reflexivity.
Qed.

Lemma corresponds_and (c d : loc) : corresponds (and_ c d) (and_ c d).
Proof. apply (corresponds_alloc {| Tagged.op := "and"; Tagged.args := Tagged.ArgsList [c; d] |}). Qed.

Lemma corresponds_or (c d : loc) : corresponds (or_ c d) (or_ c d).
Proof. apply (corresponds_alloc {| Tagged.op := "or"; Tagged.args := Tagged.ArgsList [c; d] |}). Qed.

Lemma corresponds_not (c : loc) : corresponds (one_minus c) (one_minus c).
Proof. apply (corresponds_alloc {| Tagged.op := "not"; Tagged.args := Tagged.ArgsList [c] |}). Qed.

Lemma corresponds_equal (x y : loc) : corresponds (equal x y) (equal x y).
Proof.
  unfold equal.
  apply corresponds_bind; [apply corresponds_and | intros a].
  apply corresponds_bind; [apply corresponds_not | intros nx].
  apply corresponds_bind; [apply corresponds_not | intros ny].
  apply corresponds_bind; [apply corresponds_and | intros b].
  apply corresponds_or.
Qed.

Lemma corresponds_mapM {A} (f1 : A -> M Tagged.heap loc) (f2 : A -> M Dict.heap loc)
    (xs : list A) :
  (forall x, corresponds (f1 x) (f2 x)) -> corresponds (mapM f1 xs) (mapM f2 xs).
Proof.
  intros Hf. induction xs as [| x xs IH]; [apply corresponds_ret |].
  cbn [mapM]. apply corresponds_bind; [apply Hf | intros y].
  apply corresponds_bind; [exact IH | intros ys]. apply corresponds_ret.
Qed.

Lemma corresponds_foldM (es : list loc) (a : loc) :
  corresponds (foldM (fun e0 e1 => and_ e0 e1) a es) (foldM (fun e0 e1 => and_ e0 e1) a es).
Proof.
  revert a. induction es as [| e es IH]; intros a; [apply corresponds_ret |].
  cbn [foldM]. apply corresponds_bind; [apply corresponds_and | intros a']. apply IH.
Qed.

(** X8. [equal] and [equals] build the same circuit in the first and in
    the second variant: on stores that correspond under
    [circuit(op, args) |-> {op: args}] they have the same outcome, the
    same circuit or the same exception, and leave stores that
    correspond. *)
Theorem equals_corresponds (xs ys : list loc) (x y : loc) :
  corresponds (equal x y) (equal x y)
  /\ corresponds (equals xs ys) (equals xs ys).
Proof.
  split; [apply corresponds_equal |].
  unfold equals. apply corresponds_bind.
  - apply corresponds_mapM. intros p. apply corresponds_equal.
  - intros [| e es]; [apply corresponds_raise | apply corresponds_foldM].
Qed.

(** ** The size of the circuits [equals] builds *)

Section sizes.
Context {O : Type} `{!Overloaded (list O) loc}.
Hypothesis and_creates : forall c d, creates_one (and_ c d).
Hypothesis or_creates : forall c d, creates_one (or_ c d).
Hypothesis not_creates : forall c, creates_one (one_minus c).

Lemma equal_grows (x y : loc) (h : list O) :
  exists ext, equal x y h = (Ok (length h + 4), h ++ ext) /\ length ext = 5.
Proof.
  unfold equal, bind.
  destruct (and_creates x y h) as [o1 ->].
  destruct (not_creates x (h ++ [o1])) as [o2 ->].
  destruct (not_creates y ((h ++ [o1]) ++ [o2])) as [o3 ->].
  destruct (and_creates (length (h ++ [o1])) (length ((h ++ [o1]) ++ [o2]))
              (((h ++ [o1]) ++ [o2]) ++ [o3])) as [o4 ->].
  destruct (or_creates (length h) (length (((h ++ [o1]) ++ [o2]) ++ [o3]))
              ((((h ++ [o1]) ++ [o2]) ++ [o3]) ++ [o4])) as [o5 ->].
  exists [o1; o2; o3; o4; o5]. split; [| reflexivity].
  rewrite !length_app. cbn [length]. rewrite <- !app_assoc. cbn [app].
  f_equal. f_equal. lia.
Qed.

Lemma mapM_equal_grows (ps : list (loc * loc)) (h : list O) :
  exists rs ext,
    mapM (fun p => equal p.1 p.2) ps h = (Ok rs, h ++ ext)
    /\ length rs = length ps /\ length ext = 5 * length ps
    /\ (ps <> [] -> head rs = Some (length h + 4)).
Proof.
  revert h. induction ps as [| p ps IH]; intros h.
  - exists [], []. rewrite app_nil_r. repeat split. intros H. contradiction.
  - cbn [mapM]. unfold bind at 1.
    destruct (equal_grows p.1 p.2 h) as (e1 & -> & Hl1).
    unfold bind at 1. destruct (IH (h ++ e1)) as (rs & e2 & -> & Hrs & Hl2 & _).
    eexists (_ :: rs), (e1 ++ e2). rewrite app_assoc. split; [reflexivity |].
    cbn [length]. rewrite length_app. repeat split; lia.
Qed.

Lemma foldM_and_grows (es : list loc) (a : loc) (h : list O) :
  exists r ext,
    foldM (fun e0 e1 => and_ e0 e1) a es h = (Ok r, h ++ ext) /\ length ext = length es
    /\ r = (if es is [] then a else length h + length es - 1).
Proof.
  revert a h. induction es as [| e es IH]; intros a h.
  - exists a, []. rewrite app_nil_r. repeat split.
  - cbn [foldM]. unfold bind. destruct (and_creates a e h) as [o ->].
    destruct (IH (length h) (h ++ [o])) as (r & ext & -> & Hl & Hr).
    exists r, (o :: ext). rewrite <- app_assoc. split; [reflexivity |].
    cbn [length]. split; [lia |]. rewrite Hr. rewrite length_app. cbn [length].
    destruct es; cbn [length]; lia.
Qed.

Lemma equals_grows (xs ys : list loc) (h : list O) :
  zip xs ys <> [] ->
  exists ext,
    equals xs ys h = (Ok (length h + (6 * length (zip xs ys) - 2)), h ++ ext)
    /\ length ext = 6 * length (zip xs ys) - 1.
Proof.
  intros Hne. unfold equals, bind.
  destruct (mapM_equal_grows (zip xs ys) h) as (rs & e1 & -> & Hrs & Hl1 & Hhead).
  specialize (Hhead Hne).
  destruct rs as [| a es]; [discriminate |]. injection Hhead as ->.
  cbn [reduce]. destruct (foldM_and_grows es (length h + 4) (h ++ e1)) as (r & e2 & -> & Hl2 & ->).
  exists (e1 ++ e2). rewrite app_assoc. cbn [length] in Hrs.
  split; [| rewrite length_app; lia].
  f_equal. f_equal. rewrite length_app. destruct es; cbn [length] in *; lia.
Qed.
End sizes.

Lemma tagged_creates :
  (forall c d, creates_one (Tagged.__and__ c d))
  /\ (forall c d, creates_one (Tagged.__or__ c d))
  /\ (forall c, creates_one (Tagged.__rsub__ c (PyInt 1))).
Proof. repeat split; intros; intros h; eexists; reflexivity. Qed.

Lemma dict_creates :
  (forall c d, creates_one (Dict.__and__ c d))
  /\ (forall c d, creates_one (Dict.__or__ c d))
  /\ (forall c, creates_one (Dict.__rsub__ c (PyInt 1))).
Proof. repeat split; intros; intros h; eexists; reflexivity. Qed.

Lemma length_zip {A B} (xs : list A) (ys : list B) :
  length (zip xs ys) = length xs `min` length ys.
Proof.
  revert ys. induction xs as [| x xs IH]; intros [| y ys]; cbn; [reflexivity .. |].
  rewrite IH. reflexivity.
Qed.

(** X9. In the first and in the second variant [equals] on lists that
    both have an item raises nothing: it keeps every object the store
    had, adds [6 * m - 1] objects for [m = min(len(xs), len(ys))], five
    gates a pair and one [and] between each pair and the next, and
    returns the last of them. *)
Theorem equals_circuit_size (xs ys : list loc) (hT : Tagged.heap) (hD : Dict.heap) :
  xs <> [] -> ys <> [] ->
  (exists ext,
     equals xs ys hT = (Ok (length hT + (6 * (length xs `min` length ys) - 2)), hT ++ ext)
     /\ length ext = 6 * (length xs `min` length ys) - 1)
  /\ (exists ext,
        equals xs ys hD = (Ok (length hD + (6 * (length xs `min` length ys) - 2)), hD ++ ext)
        /\ length ext = 6 * (length xs `min` length ys) - 1).
Proof.
  intros Hxs Hys.
  assert (zip xs ys <> []) as Hne.
  { destruct xs; [contradiction |]. destruct ys; [contradiction | discriminate]. }
  rewrite <- length_zip.
  destruct tagged_creates as (Ta & To & Tn). destruct dict_creates as (Da & Do & Dn).
  split.
  - exact (equals_grows (Overloaded0 := Tagged.ops) Ta To Tn xs ys hT Hne).
  - exact (equals_grows (Overloaded0 := Dict.ops) Da Do Dn xs ys hD Hne).
Qed.

Lemma equals_circuit_size_witness :
  let c0 := {| Tagged.op := "bit"; Tagged.args := Tagged.ArgsInt 0 |} in
  let c1 := {| Tagged.op := "bit"; Tagged.args := Tagged.ArgsInt 1 |} in
  ([0; 1] <> ([] : list loc) /\ [1; 1] <> ([] : list loc))
  /\ exists ext,
       equals (S := Tagged.heap) [0; 1] [1; 1] [c0; c1] = (Ok 12, [c0; c1] ++ ext)
       /\ length ext = 11.
Proof.
  intros c0 c1.
  assert ([0; 1] <> ([] : list loc)) as H by discriminate.
  assert ([1; 1] <> ([] : list loc)) as H' by discriminate.
  split; [split; [exact H | exact H'] |].
  exact (proj1 (equals_circuit_size [0; 1] [1; 1] [c0; c1] [] H H')).
Defined.

(** ** The third variant: exceptions, results and stores *)

Module GraphRuns.
Import Graph GraphWf GraphFacts GraphTrees.

Lemma binary_run (label : string) (h : list circuit) (c d : loc) (g k : circuit) :
  label = "$\vee$" \/ label = "$\wedge$" ->
  h !! c = Some g -> h !! d = Some k ->
  let g' := relabel (fun x => "l-" +:+ x) g in
  let k' := relabel (fun x => "r-" +:+ x) k in
  binary label c d h
  = match nodes g, nodes k with
    | s0 :: _, o0 :: _ =>
        (Ok (length h + 4),
         h ++ [leaf label; merge g' k'; g'; k';
               foldl add_edge (merge (leaf label) (merge g' k'))
                 [(label, "l-" +:+ s0); (label, "r-" +:+ o0)]])
    | _, _ =>
        (Raise IndexError,
         h ++ [leaf label; merge g' k'; g'; k'; merge (leaf label) (merge g' k')])
    end.
Proof.
  intros Hlabel Hc Hd.
  apply (binary_at label h c d g k Hc Hd (sides_apart g k) (top_apart label g k Hlabel)).
Qed.

Lemma rsub_run (h : list circuit) (c : loc) (g : circuit) :
  h !! c = Some g ->
  let g' := relabel (fun x => "n-" +:+ x) g in
  __rsub__ c (PyInt 1) h
  = match nodes g with
    | s0 :: _ =>
        (Ok (length h + 1),
         h ++ [leaf "$\neg$";
               foldl add_edge (merge (leaf "$\neg$") g') [("$\neg$", "n-" +:+ s0)];
               leaf "$\neg$"; g'])
    | [] =>
        (Raise IndexError,
         h ++ [leaf "$\neg$"; merge (leaf "$\neg$") g'; leaf "$\neg$"; g'])
    end.
Proof. intros Hc. apply (rsub_at h c g (PyInt 1) Hc eq_refl (neg_apart g)). Qed.

Lemma binary_outcome (label : string) (h : list circuit) (c d : loc) (g k : circuit) :
  label = "$\vee$" \/ label = "$\wedge$" ->
  h !! c = Some g -> h !! d = Some k ->
  ((binary label c d h).1 = Raise IndexError <-> nodes g = [] \/ nodes k = [])
  /\ (nodes g <> [] -> nodes k <> [] -> (binary label c d h).1 = Ok (length h + 4)).
Proof.
  intros Hlabel Hc Hd. rewrite (binary_run label h c d g k Hlabel Hc Hd).
  destruct (nodes g) as [| s0 ns], (nodes k) as [| o0 ms]; cbn [fst]; split;
    try (split; [auto | reflexivity]); try (intros H1 H2; contradiction).
  - split; [discriminate | intros [H | H]; discriminate H].
  - reflexivity.
Qed.


(** The first node stays the first. *)
Lemma add_node_head (g : circuit) (n a : string) :
  head (nodes g) = Some a -> head (nodes (add_node g n)) = Some a.
Proof.
  intros H. unfold add_node. destruct (bool_decide _); [exact H |].
  cbn. destruct (nodes g); [discriminate | exact H].
Qed.

Lemma add_edge_head (g : circuit) (e : string * string) (a : string) :
  head (nodes g) = Some a -> head (nodes (add_edge g e)) = Some a.
Proof.
  intros H. unfold add_edge.
  pose proof (add_node_head _ e.2 a (add_node_head g e.1 a H)) as H'.
  destruct (has_edge _ _ _); exact H'.
Qed.

Lemma add_nodes_head (ns : list string) (g : circuit) (a : string) :
  head (nodes g) = Some a -> head (nodes (foldl add_node g ns)) = Some a.
Proof.
  revert g. induction ns as [| n ns IH]; intros g H; [exact H |].
  cbn. apply IH, add_node_head, H.
Qed.

Lemma add_edges_head (es : list (string * string)) (g : circuit) (a : string) :
  head (nodes g) = Some a -> head (nodes (foldl add_edge g es)) = Some a.
Proof.
  revert g. induction es as [| e es IH]; intros g H; [exact H |].
  cbn. apply IH, add_edge_head, H.
Qed.

Lemma relabel_head (f : string -> string) (g : circuit) (a : string) :
  head (nodes g) = Some a -> head (nodes (relabel f g)) = Some (f a).
Proof.
  intros H. unfold relabel. apply add_edges_head.
  destruct (nodes g) as [| n ns]; [discriminate |]. injection H as ->.
  cbn [map foldl]. apply add_nodes_head. unfold add_node.
  rewrite bool_decide_eq_false_2 by apply not_elem_of_nil. reflexivity.
Qed.

Lemma merge_head (g k : circuit) (a : string) :
  head (nodes g) = Some a -> head (nodes (merge g k)) = Some a.
Proof.
  intros H. unfold merge. do 2 apply add_edges_head. apply add_nodes_head.
  destruct (nodes g) as [| n ns]; [discriminate |]. injection H as ->.
  cbn [foldl]. apply add_nodes_head. unfold add_node.
  rewrite bool_decide_eq_false_2 by apply not_elem_of_nil. reflexivity.
Qed.

Lemma leaf_head (a : string) : head (nodes (leaf a)) = Some a.
Proof. rewrite leaf_eq. reflexivity. Qed.

Lemma head_nonempty (g : circuit) (a : string) : head (nodes g) = Some a -> nodes g <> [].
Proof. intros H Hnil. rewrite Hnil in H. discriminate. Qed.

(** What a binary operator leaves in the store: four graphs it worked
    with, and its result. *)
Lemma binary_result (label : string) (h : list circuit) (c d : loc) (g k : circuit)
    (rg rk : string) :
  label = "$\vee$" \/ label = "$\wedge$" ->
  h !! c = Some g -> h !! d = Some k ->
  head (nodes g) = Some rg -> head (nodes k) = Some rk ->
  exists ext res,
    binary label c d h = (Ok (length h + 4), h ++ ext ++ [res])
    /\ length ext = 4
    /\ Forall (fun o => wf o /\ nodes o <> []) (ext ++ [res])
    /\ head (nodes res) = Some label
    /\ (wf g -> wf k -> res = junction label g k rg rk).
Proof.
  intros Hlabel Hc Hd Hrg Hrk.
  rewrite (binary_run label h c d g k Hlabel Hc Hd).
  destruct (nodes g) as [| s0 ns] eqn:Hng; [discriminate |]. injection Hrg as ->.
  destruct (nodes k) as [| o0 ms] eqn:Hnk; [discriminate |]. injection Hrk as ->.
  assert (head (nodes g) = Some rg) as Hg by (rewrite Hng; reflexivity).
  assert (head (nodes k) = Some rk) as Hk by (rewrite Hnk; reflexivity).
  eexists [_; _; _; _], _. split; [reflexivity |]. split; [reflexivity |].
  split; [| split].
  - repeat (apply List.Forall_cons || apply List.Forall_nil); split.
    + apply leaf_wf.
    + apply (head_nonempty _ label), leaf_head.
    + apply merge_wf.
    + apply (head_nonempty _ ("l-" +:+ rg)), merge_head, relabel_head, Hg.
    + apply relabel_is_wf.
    + apply (head_nonempty _ ("l-" +:+ rg)), relabel_head, Hg.
    + apply relabel_is_wf.
    + apply (head_nonempty _ ("r-" +:+ rk)), relabel_head, Hk.
    + apply add_edges_wf, merge_wf.
    + apply (head_nonempty _ label), add_edges_head, merge_head, leaf_head.
  - apply add_edges_head, merge_head, leaf_head.
  - intros Hwg Hwk. apply junction_built; auto.
    + rewrite Hng. left.
    + rewrite Hnk. left.
Qed.

Lemma rsub_result (h : list circuit) (c : loc) (g : circuit) (rg : string) :
  h !! c = Some g -> head (nodes g) = Some rg ->
  exists res,
    __rsub__ c (PyInt 1) h
    = (Ok (length h + 1),
       h ++ [leaf "$\neg$"; res; leaf "$\neg$"; relabel (fun x => "n-" +:+ x) g])
    /\ Forall (fun o => wf o /\ nodes o <> [])
         [leaf "$\neg$"; res; leaf "$\neg$"; relabel (fun x => "n-" +:+ x) g]
    /\ head (nodes res) = Some "$\neg$"
    /\ (wf g -> res = negation g rg).
Proof.
  intros Hc Hrg. rewrite (rsub_run h c g Hc).
  destruct (nodes g) as [| s0 ns] eqn:Hng; [discriminate |]. injection Hrg as ->.
  assert (head (nodes g) = Some rg) as Hg by (rewrite Hng; reflexivity).
  eexists. split; [reflexivity |]. split; [| split].
  - repeat (apply List.Forall_cons || apply List.Forall_nil); split.
    + apply leaf_wf.
    + apply (head_nonempty _ "$\neg$"), leaf_head.
    + apply add_edges_wf, merge_wf.
    + apply (head_nonempty _ "$\neg$"), add_edges_head, merge_head, leaf_head.
    + apply leaf_wf.
    + apply (head_nonempty _ "$\neg$"), leaf_head.
    + apply relabel_is_wf.
    + apply (head_nonempty _ ("n-" +:+ rg)), relabel_head, Hg.
  - apply add_edges_head, merge_head, leaf_head.
  - intros Hwg. apply negation_built; [exact Hwg |]. rewrite Hng. left.
Qed.

Lemma heap_ok_app (h ext : list circuit) :
  GraphShape.heap_ok h -> Forall (fun o => wf o /\ nodes o <> []) ext ->
  GraphShape.heap_ok (h ++ ext).
Proof.
  intros Hok Hext l g Hl. apply lookup_app_Some in Hl as [Hl | [_ Hl]].
  - exact (Hok l g Hl).
  - rewrite Forall_forall in Hext. apply Hext. apply list_elem_of_lookup. eauto.
Qed.

Lemma step_keeps_ok (h h' : list circuit) :
  GraphShape.heap_ok h -> GraphShape.step h h' -> GraphShape.heap_ok h'.
Proof.
  intros Hok Hstep.
  destruct Hstep as [h a r h' Hrun | h c d r h' Hc Hd Hrun | h c d r h' Hc Hd Hrun
                    | h c r h' Hc Hrun].
  - pose proof (init_some_at h [] a) as Hinit. rewrite app_nil_r in Hinit.
    rewrite Hinit in Hrun. injection Hrun as _ <-. apply heap_ok_app; [exact Hok |].
    constructor; [| constructor]. split; [apply leaf_wf |].
    apply (head_nonempty _ a), leaf_head.
  - destruct (lookup_lt_is_Some_2 h c Hc) as [g Hg].
    destruct (lookup_lt_is_Some_2 h d Hd) as [k Hk].
    destruct (Hok c g Hg) as [_ Hng]. destruct (Hok d k Hk) as [_ Hnk].
    destruct (nodes g) as [| rg ns] eqn:Eg; [contradiction |].
    destruct (nodes k) as [| rk ms] eqn:Ek; [contradiction |].
    destruct (binary_result "$\vee$" h c d g k rg rk) as (ext & res & Hbin & _ & Hall & _);
      auto; try (rewrite ?Eg, ?Ek; reflexivity).
    rewrite graph_or_binary, Hbin in Hrun. injection Hrun as _ <-.
    apply heap_ok_app; assumption.
  - destruct (lookup_lt_is_Some_2 h c Hc) as [g Hg].
    destruct (lookup_lt_is_Some_2 h d Hd) as [k Hk].
    destruct (Hok c g Hg) as [_ Hng]. destruct (Hok d k Hk) as [_ Hnk].
    destruct (nodes g) as [| rg ns] eqn:Eg; [contradiction |].
    destruct (nodes k) as [| rk ms] eqn:Ek; [contradiction |].
    destruct (binary_result "$\wedge$" h c d g k rg rk) as (ext & res & Hbin & _ & Hall & _);
      auto; try (rewrite ?Eg, ?Ek; reflexivity).
    rewrite graph_and_binary, Hbin in Hrun. injection Hrun as _ <-.
    apply heap_ok_app; assumption.
  - destruct (lookup_lt_is_Some_2 h c Hc) as [g Hg].
    destruct (Hok c g Hg) as [_ Hng].
    destruct (nodes g) as [| rg ns] eqn:Eg; [contradiction |].
    destruct (rsub_result h c g rg Hg) as (res & Hrsub & Hall & _);
      [rewrite Eg; reflexivity |].
    rewrite Hrsub in Hrun. injection Hrun as _ <-.
    apply heap_ok_app; assumption.
Qed.

Lemma built_ok (h : list circuit) : GraphShape.built h -> GraphShape.heap_ok h.
Proof.
  induction 1 as [| h h' _ IH Hstep].
  - intros l g Hl. destruct l; discriminate Hl.
  - exact (step_keeps_ok h h' IH Hstep).
Qed.

End GraphRuns.

(** X10. In the third variant, on circuits that exist, [c | d] and
    [c & d] raise [IndexError] exactly when the graph of [c] or of [d]
    has no node, and [1 - c] exactly when the graph of [c] has none;
    otherwise they return a circuit. [union] never finds a common node:
    no [NetworkXError] is raised. *)
Theorem graph_operators_outcome (h : list Graph.circuit) (c d : loc) (g k : Graph.circuit) :
  h !! c = Some g -> h !! d = Some k ->
  (((Graph.__or__ c d h).1 = Raise IndexError <-> Graph.nodes g = [] \/ Graph.nodes k = [])
   /\ (Graph.nodes g <> [] -> Graph.nodes k <> [] ->
       (Graph.__or__ c d h).1 = Ok (length h + 4)))
  /\ (((Graph.__and__ c d h).1 = Raise IndexError <-> Graph.nodes g = [] \/ Graph.nodes k = [])
      /\ (Graph.nodes g <> [] -> Graph.nodes k <> [] ->
          (Graph.__and__ c d h).1 = Ok (length h + 4)))
  /\ (((Graph.__rsub__ c (PyInt 1) h).1 = Raise IndexError <-> Graph.nodes g = [])
      /\ (Graph.nodes g <> [] -> (Graph.__rsub__ c (PyInt 1) h).1 = Ok (length h + 1))).
Proof.
  intros Hc Hd. split; [| split].
  - rewrite graph_or_binary. apply GraphRuns.binary_outcome; auto.
  - rewrite graph_and_binary. apply GraphRuns.binary_outcome; auto.
  - rewrite (GraphRuns.rsub_run h c g Hc).
    destruct (Graph.nodes g) as [| s0 ns]; cbn [fst]; split.
    + split; reflexivity.
    + intros H. contradiction.
    + split; discriminate.
    + reflexivity.
Qed.

Lemma graph_operators_outcome_witness :
  let x := {| Graph.nodes := ["$x_0$"]; Graph.edges := [] |} in
  ([x; Graph.empty] !! 0 = Some x /\ [x; Graph.empty] !! 1 = Some Graph.empty)
  /\ (Graph.__or__ 0 1 [x; Graph.empty]).1 = Raise IndexError
  /\ (Graph.__rsub__ 0 (PyInt 1) [x; Graph.empty]).1 = Ok 3.
Proof.
  intros x.
  assert ([x; Graph.empty] !! 0 = Some x) as Hc by reflexivity.
  assert ([x; Graph.empty] !! 1 = Some Graph.empty) as Hd by reflexivity.
  split; [split; [exact Hc | exact Hd] |].
  destruct (graph_operators_outcome [x; Graph.empty] 0 1 x Graph.empty Hc Hd)
    as ((Hor & _) & _ & (_ & Hnot)).
  split; [apply Hor; right; reflexivity | apply Hnot; discriminate].
Defined.

(** X11. For two circuits whose graphs are well formed, with output
    nodes first, [c | d] and [c & d] return the graph that has the new
    output node first, then the nodes of [c] under the prefix [l-] and
    those of [d] under [r-], and for edges those of [c] and [d] under
    these prefixes and two more, from the new output node to the output
    nodes of [c] and [d]: one node and two edges more than both graphs
    together. *)
Theorem graph_binary_result (h : list Graph.circuit) (c d : loc) (g k : Graph.circuit)
    (rg rk : string) :
  h !! c = Some g -> h !! d = Some k ->
  GraphWf.wf g -> GraphWf.wf k ->
  head (Graph.nodes g) = Some rg -> head (Graph.nodes k) = Some rk ->
  (exists h',
     Graph.__or__ c d h = (Ok (length h + 4), h')
     /\ h' !! (length h + 4) = Some (GraphWf.junction "$\vee$" g k rg rk))
  /\ (exists h',
        Graph.__and__ c d h = (Ok (length h + 4), h')
        /\ h' !! (length h + 4) = Some (GraphWf.junction "$\wedge$" g k rg rk))
  /\ (forall label,
        length (Graph.nodes (GraphWf.junction label g k rg rk))
        = 1 + length (Graph.nodes g) + length (Graph.nodes k)
        /\ length (Graph.edges (GraphWf.junction label g k rg rk))
           = length (Graph.edges g) + length (Graph.edges k) + 2).
Proof.
  intros Hc Hd Hg Hk Hrg Hrk. split; [| split].
  - destruct (GraphRuns.binary_result "$\vee$" h c d g k rg rk)
      as (ext & res & Hrun & Hlen & _ & _ & Hres); auto.
    rewrite graph_or_binary, Hrun. eexists. split; [reflexivity |].
    rewrite (Hres Hg Hk), app_assoc, <- Hlen, <- length_app.
    apply list_lookup_middle. reflexivity.
  - destruct (GraphRuns.binary_result "$\wedge$" h c d g k rg rk)
      as (ext & res & Hrun & Hlen & _ & _ & Hres); auto.
    rewrite graph_and_binary, Hrun. eexists. split; [reflexivity |].
    rewrite (Hres Hg Hk), app_assoc, <- Hlen, <- length_app.
    apply list_lookup_middle. reflexivity.
  - intros label. cbn [GraphWf.junction Graph.nodes Graph.edges length].
    rewrite !length_app, !length_map. cbn [length]. lia.
Qed.

Lemma graph_binary_result_witness :
  let x := {| Graph.nodes := ["$x_0$"]; Graph.edges := [] |} in
  let y := {| Graph.nodes := ["$y_0$"]; Graph.edges := [] |} in
  exists h',
    Graph.__and__ 0 1 [x; y] = (Ok 6, h')
    /\ h' !! 6 = Some {| Graph.nodes := ["$\wedge$"; "l-$x_0$"; "r-$y_0$"];
                         Graph.edges := [("$\wedge$", "l-$x_0$"); ("$\wedge$", "r-$y_0$")] |}.
Proof.
  intros x y.
  assert (GraphWf.wf x) as Hx.
  { split; [apply NoDup_singleton | split].
    - intros e He. apply elem_of_nil in He. contradiction.
    - split; constructor. }
  assert (GraphWf.wf y) as Hy.
  { split; [apply NoDup_singleton | split].
    - intros e He. apply elem_of_nil in He. contradiction.
    - split; constructor. }
  exact (proj1 (proj2 (graph_binary_result [x; y] 0 1 x y "$x_0$" "$y_0$"
                         eq_refl eq_refl Hx Hy eq_refl eq_refl))).
Defined.

(** X12. In every store built from circuits [circuit(name)] by the
    operators of the third variant, each graph is well formed and has a
    node; so [c | d], [c & d] and [1 - c] on circuits of the store raise
    nothing, and the store they leave is again such a store. *)
Theorem graph_store_invariant (h : list Graph.circuit) :
  GraphShape.built h ->
  GraphShape.heap_ok h
  /\ (forall c d, c < length h -> d < length h ->
      (Graph.__or__ c d h).1 = Ok (length h + 4)
      /\ (Graph.__and__ c d h).1 = Ok (length h + 4)
      /\ (Graph.__rsub__ c (PyInt 1) h).1 = Ok (length h + 1))
  /\ (forall h', GraphShape.step h h' -> GraphShape.heap_ok h').
Proof.
  intros Hb. pose proof (GraphRuns.built_ok h Hb) as Hok.
  split; [exact Hok | split].
  - intros c d Hc Hd.
    destruct (lookup_lt_is_Some_2 h c Hc) as [g Hg].
    destruct (lookup_lt_is_Some_2 h d Hd) as [k Hk].
    destruct (Hok c g Hg) as [_ Hng]. destruct (Hok d k Hk) as [_ Hnk].
    rewrite graph_or_binary, graph_and_binary.
    split; [| split].
    + apply (GraphRuns.binary_outcome "$\vee$" h c d g k); auto.
    + apply (GraphRuns.binary_outcome "$\wedge$" h c d g k); auto.
    + rewrite (GraphRuns.rsub_run h c g Hg).
      destruct (Graph.nodes g); [contradiction | reflexivity].
  - intros h' Hstep. exact (GraphRuns.step_keeps_ok h h' Hok Hstep).
Qed.

Lemma graph_store_invariant_witness :
  let x := {| Graph.nodes := ["$x_0$"]; Graph.edges := [] |} in
  GraphShape.built [x] /\ (Graph.__rsub__ 0 (PyInt 1) [x]).1 = Ok 2.
Proof.
  intros x.
  assert (GraphShape.built [x]) as Hb.
  { apply (GraphShape.built_step []); [apply GraphShape.built_nil |].
    apply (GraphShape.step_input [] "$x_0$" 0). reflexivity. }
  split; [exact Hb |].
  destruct (graph_store_invariant [x] Hb) as (_ & Hrun & _).
  apply (Hrun 0 0); cbn; lia.
Defined.

(** ** Node names of the third variant *)

Lemma places_wires (t : Paths.tree) :
  length (Paths.wires t) + 1 = length (Paths.places t).
Proof.
  induction t as [a | a t1 IH | a l IHl r IHr]; cbn [Paths.wires Paths.places length].
  - reflexivity.
  - rewrite length_app, !length_map. cbn [length]. lia.
  - rewrite !length_app, !length_map. cbn [length]. lia.
Qed.

(** X13. Every circuit built with the operators of the third variant
    from circuits [circuit(name)] is a graph whose node list holds the
    places of the circuit, the output first, each under the name that
    spells the steps [l], [r] and [n] from the output to it, followed by
    its label; its edges join each gate to its operands; it is well
    formed and a tree, with one edge less than nodes. *)
Theorem graph_of_built_tree (t : Paths.tree) (h : list Graph.circuit) :
  Paths.gates t ->
  exists r h' g,
    Paths.build t h = (Ok r, h')
    /\ h' !! r = Some g
    /\ Graph.nodes g = map Paths.name (Paths.places t)
    /\ Graph.edges g = Paths.wires t
    /\ GraphWf.wf g
    /\ length (Graph.edges g) + 1 = length (Graph.nodes g).
Proof.
  intros Ht. destruct (GraphTrees.build_graph_of t h Ht) as (r & ext & Hrun & Hr).
  exists r, (h ++ ext), (GraphWf.graph_of t).
  split; [exact Hrun | split; [exact Hr |]].
  rewrite (GraphTrees.graph_of_nodes t Ht), (GraphTrees.graph_of_edges t Ht), length_map.
  split; [reflexivity | split; [reflexivity |]].
  split; [apply GraphTrees.graph_of_wf, Ht | apply places_wires].
Qed.

Lemma graph_of_built_tree_witness :
  let t := Paths.Unary "$\neg$" (Paths.Binary "$\wedge$" (Paths.Leaf "a") (Paths.Leaf "b")) in
  Paths.gates t
  /\ exists r h' g,
       Paths.build t [] = (Ok r, h')
       /\ h' !! r = Some g
       /\ Graph.nodes g = ["$\neg$"; "n-$\wedge$"; "n-l-a"; "n-r-b"].
Proof.
  intros t.
  assert (Paths.gates t) as Ht by (cbn; auto).
  split; [exact Ht |].
  destruct (graph_of_built_tree t [] Ht) as (r & h' & g & Hrun & Hr & Hn & _).
  exists r, h', g. split; [exact Hrun | split; [exact Hr | exact Hn]].
Defined.

(** *** Reading a node name back *)

Lemma split_plain (x : string) : dash_free x = true -> split "-" x = [x].
Proof.
  induction x as [| c x IH]; [reflexivity |].
  cbn [dash_free split]. intros H. apply andb_true_iff in H as [Hc Hx].
  apply negb_true_iff in Hc. rewrite Hc, (IH Hx). reflexivity.
Qed.

Lemma split_step (s rest : string) :
  dash_free s = true -> split "-" (s +:+ "-" +:+ rest) = s :: split "-" rest.
Proof.
  induction s as [| c s IH]; [intros _; reflexivity |].
  cbn [dash_free]. intros H. apply andb_true_iff in H as [Hc Hs].
  apply negb_true_iff in Hc.
  change (String c s +:+ "-" +:+ rest) with (String c (s +:+ "-" +:+ rest)).
  cbn [split]. rewrite Hc, (IH Hs). reflexivity.
Qed.

Lemma split_name (p : list string) (x : string) :
  Forall (fun s => dash_free s = true) p -> dash_free x = true ->
  split "-" (Paths.name (p, x)) = p ++ [x].
Proof.
  intros Hp Hx. induction Hp as [| s p Hs _ IH]; cbn.
  - apply split_plain, Hx.
  - change (foldr (fun s rest => s +:+ "-" +:+ rest) x p) with (Paths.name (p, x)).
    rewrite (split_step s _ Hs), IH. reflexivity.
Qed.

Lemma places_plain (t : Paths.tree) :
  plain t = true ->
  Forall (fun p => Forall (fun s => dash_free s = true) p.1 /\ dash_free p.2 = true)
    (Paths.places t).
Proof.
  induction t as [a | a t1 IH | a l IHl r IHr]; cbn [plain Paths.places]; intros H.
  - constructor; [split; [constructor | exact H] | constructor].
  - apply andb_true_iff in H as [Ha H1].
    constructor; [split; [constructor | exact Ha] |].
    apply Forall_fmap. eapply Forall_impl; [exact (IH H1) |].
    intros p [Hp Hx]. cbn. split; [constructor; [reflexivity | exact Hp] | exact Hx].
  - apply andb_true_iff in H as [H Hr]. apply andb_true_iff in H as [Ha Hl].
    constructor; [split; [constructor | exact Ha] |].
    apply Forall_app. split; apply Forall_fmap.
    + eapply Forall_impl; [exact (IHl Hl) |].
      intros p [Hp Hx]. cbn. split; [constructor; [reflexivity | exact Hp] | exact Hx].
    + eapply Forall_impl; [exact (IHr Hr) |].
      intros p [Hp Hx]. cbn. split; [constructor; [reflexivity | exact Hp] | exact Hx].
Qed.

(** X14. When no label of a circuit holds a dash, splitting the name of
    a node at the dashes gives back its place: all parts but the last
    are the steps to the node, and the last part, the label the drawing
    shows, is the label of the gate or input there. *)
Theorem node_name_round_trip (t : Paths.tree) :
  plain t = true ->
  map Paths.steps (map Paths.name (Paths.places t)) = map fst (Paths.places t)
  /\ map Paths.label (map Paths.name (Paths.places t)) = map snd (Paths.places t).
Proof.
  intros Ht. pose proof (places_plain t Ht) as Hall.
  rewrite !List.map_map.
  split; apply List.map_ext_in; intros [p x] Hin;
    apply list_elem_of_In in Hin; rewrite Forall_forall in Hall;
    destruct (Hall _ Hin) as [Hp Hx]; cbn [fst snd] in *;
    unfold Paths.steps, Paths.label; rewrite (split_name p x Hp Hx).
  - apply removelast_last.
  - apply last_last.
Qed.

Lemma node_name_round_trip_witness :
  let t := Paths.Unary "$\neg$" (Paths.Binary "$\wedge$" (Paths.Leaf "a") (Paths.Leaf "b")) in
  plain t = true
  /\ map Paths.label ["$\neg$"; "n-$\wedge$"; "n-l-a"; "n-r-b"] = ["$\neg$"; "$\wedge$"; "a"; "b"].
Proof.
  intros t.
  assert (plain t = true) as Ht by reflexivity.
  split; [exact Ht |].
  exact (proj2 (node_name_round_trip t Ht)).
Defined.

(** ** [equals] on the third variant *)

Module GraphEquals.
Import Graph GraphWf GraphFacts GraphTrees GraphRuns.

Lemma binary_good (label : string) (h : list circuit) (c d : loc) :
  label = "$\vee$" \/ label = "$\wedge$" ->
  GraphShape.heap_ok h -> c < length h -> d < length h ->
  exists r ext,
    binary label c d h = (Ok r, h ++ ext)
    /\ GraphShape.heap_ok (h ++ ext) /\ r < length (h ++ ext).
Proof.
  intros Hlabel Hok Hc Hd.
  destruct (lookup_lt_is_Some_2 h c Hc) as [g Hg].
  destruct (lookup_lt_is_Some_2 h d Hd) as [k Hk].
  destruct (Hok c g Hg) as [_ Hng]. destruct (Hok d k Hk) as [_ Hnk].
  destruct (nodes g) as [| rg ns] eqn:Eg; [contradiction |].
  destruct (nodes k) as [| rk ms] eqn:Ek; [contradiction |].
  destruct (binary_result label h c d g k rg rk) as (ext & res & Hbin & Hlen & Hall & _);
    auto; try (rewrite ?Eg, ?Ek; reflexivity).
  exists (length h + 4), (ext ++ [res]). split; [exact Hbin |].
  split; [apply heap_ok_app; assumption |].
  rewrite !length_app, Hlen. cbn. lia.
Qed.

Lemma rsub_good (h : list circuit) (c : loc) :
  GraphShape.heap_ok h -> c < length h ->
  exists r ext,
    __rsub__ c (PyInt 1) h = (Ok r, h ++ ext)
    /\ GraphShape.heap_ok (h ++ ext) /\ r < length (h ++ ext).
Proof.
  intros Hok Hc.
  destruct (lookup_lt_is_Some_2 h c Hc) as [g Hg].
  destruct (Hok c g Hg) as [_ Hng].
  destruct (nodes g) as [| rg ns] eqn:Eg; [contradiction |].
  destruct (rsub_result h c g rg Hg) as (res & Hrsub & Hall & _); [rewrite Eg; reflexivity |].
  eexists _, _. split; [exact Hrsub |].
  split; [apply heap_ok_app; assumption |].
  rewrite length_app. cbn. lia.
Qed.

Lemma equal_good (h : list circuit) (x y : loc) :
  GraphShape.heap_ok h -> x < length h -> y < length h ->
  exists r ext,
    equal x y h = (Ok r, h ++ ext)
    /\ GraphShape.heap_ok (h ++ ext) /\ r < length (h ++ ext).
Proof.
  intros Hok Hx Hy. unfold equal, bind.
  change (and_ x y) with (binary "$\wedge$" x y).
  destruct (binary_good "$\wedge$" h x y) as (a & e1 & -> & Hok1 & Ha); auto.
  change (one_minus x) with (__rsub__ x (PyInt 1)).
  destruct (rsub_good (h ++ e1) x Hok1) as (nx & e2 & -> & Hok2 & Hnx);
    [rewrite length_app; lia |].
  change (one_minus y) with (__rsub__ y (PyInt 1)).
  destruct (rsub_good ((h ++ e1) ++ e2) y Hok2) as (ny & e3 & -> & Hok3 & Hny);
    [rewrite !length_app; lia |].
  change (and_ nx ny) with (binary "$\wedge$" nx ny).
  destruct (binary_good "$\wedge$" (((h ++ e1) ++ e2) ++ e3) nx ny) as (b & e4 & -> & Hok4 & Hb);
    auto; [rewrite length_app; lia |].
  change (or_ a b) with (binary "$\vee$" a b).
  destruct (binary_good "$\vee$" ((((h ++ e1) ++ e2) ++ e3) ++ e4) a b)
    as (r & e5 & -> & Hok5 & Hr); auto; [rewrite !length_app in *; lia |].
  exists r, (e1 ++ e2 ++ e3 ++ e4 ++ e5). rewrite !app_assoc. auto.
Qed.

Lemma mapM_equal_good (ps : list (loc * loc)) (h : list circuit) :
  GraphShape.heap_ok h ->
  Forall (fun p => p.1 < length h /\ p.2 < length h) ps ->
  exists rs ext,
    mapM (fun p => equal p.1 p.2) ps h = (Ok rs, h ++ ext)
    /\ GraphShape.heap_ok (h ++ ext)
    /\ Forall (fun r => r < length (h ++ ext)) rs
    /\ length rs = length ps.
Proof.
  intros Hok Hps. revert h Hok Hps. induction ps as [| p ps IH]; intros h Hok Hps.
  - exists [], []. rewrite app_nil_r.
    split; [reflexivity | split; [exact Hok | split; [constructor | reflexivity]]].
  - apply Forall_cons in Hps as [[Hp1 Hp2] Hps].
    cbn [mapM]. unfold bind at 1.
    destruct (equal_good h p.1 p.2 Hok Hp1 Hp2) as (r & e1 & -> & Hok1 & Hr).
    unfold bind at 1.
    destruct (IH (h ++ e1) Hok1) as (rs & e2 & -> & Hok2 & Hrs & Hlen).
    { eapply Forall_impl; [exact Hps |]. intros q [H1 H2]. rewrite length_app. lia. }
    exists (r :: rs), (e1 ++ e2). rewrite app_assoc. split; [reflexivity |].
    split; [exact Hok2 |]. split; [| cbn; lia].
    constructor; [rewrite length_app; lia | exact Hrs].
Qed.

Lemma foldM_and_good (es : list loc) (a : loc) (h : list circuit) :
  GraphShape.heap_ok h -> a < length h -> Forall (fun r => r < length h) es ->
  exists r ext,
    foldM (fun e0 e1 => and_ e0 e1) a es h = (Ok r, h ++ ext)
    /\ GraphShape.heap_ok (h ++ ext) /\ r < length (h ++ ext).
Proof.
  revert a h. induction es as [| e es IH]; intros a h Hok Ha Hes.
  - exists a, []. rewrite app_nil_r. auto.
  - apply Forall_cons in Hes as [He Hes]. cbn [foldM]. unfold bind.
    change (and_ a e) with (binary "$\wedge$" a e).
    destruct (binary_good "$\wedge$" h a e) as (a' & e1 & -> & Hok1 & Ha'); auto.
    destruct (IH a' (h ++ e1) Hok1 Ha') as (r & e2 & -> & Hok2 & Hr).
    { eapply Forall_impl; [exact Hes |]. intros q Hq. cbn beta in *. rewrite length_app. lia. }
    exists r, (e1 ++ e2). rewrite app_assoc. auto.
Qed.

Lemma zip_valid (xs ys : list loc) (n : nat) :
  Forall (fun x => x < n) xs -> Forall (fun y => y < n) ys ->
  Forall (fun p => p.1 < n /\ p.2 < n) (zip xs ys).
Proof.
  intros Hxs. revert ys. induction Hxs as [| x xs Hx _ IH]; intros ys Hys; [constructor |].
  destruct Hys as [| y ys Hy Hys]; [constructor |].
  cbn [zip]. constructor; [split; assumption | apply IH, Hys].
Qed.

End GraphEquals.

(** X15. In a store built with the third variant, [equals] on two
    lists of circuits of the store that both have an item raises
    nothing: it returns a circuit, keeps every object the store had, and
    leaves a store of well-formed graphs. The loop of the first
    definition raises [TypeError] there, at [1 & equal(xs[0], ys[0])]. *)
Theorem graph_equals_returns (xs ys : list loc) (h : list Graph.circuit) :
  GraphShape.built h ->
  Forall (fun x => x < length h) xs -> Forall (fun y => y < length h) ys ->
  xs <> [] -> ys <> [] ->
  (exists r ext,
     equals xs ys h = (Ok r, h ++ ext)
     /\ GraphShape.heap_ok (h ++ ext) /\ r < length (h ++ ext))
  /\ (equals_loop xs ys h).1 = Raise TypeError.
Proof.
  intros Hb Hxs Hys Hx Hy. pose proof (GraphRuns.built_ok h Hb) as Hok. split.
  - unfold equals, bind.
    destruct (GraphEquals.mapM_equal_good (zip xs ys) h Hok
                (GraphEquals.zip_valid xs ys _ Hxs Hys))
      as (rs & e1 & -> & Hok1 & Hrs & Hlen).
    destruct rs as [| a es].
    { destruct xs; [contradiction |]. destruct ys; [contradiction | discriminate]. }
    apply Forall_cons in Hrs as [Ha Hes]. cbn [reduce].
    destruct (GraphEquals.foldM_and_good es a (h ++ e1) Hok1 Ha Hes)
      as (r & e2 & -> & Hok2 & Hr).
    exists r, (e1 ++ e2). rewrite app_assoc. auto.
  - destruct xs as [| x xs]; [contradiction |]. destruct ys as [| y ys]; [contradiction |].
    apply Forall_cons in Hxs as [Hxl _]. apply Forall_cons in Hys as [Hyl _].
    destruct (GraphEquals.equal_good h x y Hok Hxl Hyl) as (r & ext & Hrun & _).
    unfold equals_loop. cbn [length seq foldM]. unfold bind at 1.
    unfold loop_body. unfold bind at 1. cbn [getitem lookup list_lookup ret].
    unfold bind at 1. cbn [getitem lookup list_lookup ret].
    unfold bind at 1. rewrite Hrun. reflexivity.
Qed.

Lemma graph_equals_returns_witness :
  let x := {| Graph.nodes := ["$x_0$"]; Graph.edges := [] |} in
  let y := {| Graph.nodes := ["$y_0$"]; Graph.edges := [] |} in
  GraphShape.built [x; y]
  /\ (exists r ext, equals [0] [1] [x; y] = (Ok r, [x; y] ++ ext))
  /\ (equals_loop [0] [1] [x; y]).1 = Raise TypeError.
Proof.
  intros x y.
  assert (GraphShape.built [x; y]) as Hb.
  { apply (GraphShape.built_step [x]).
    - apply (GraphShape.built_step []); [apply GraphShape.built_nil |].
      apply (GraphShape.step_input [] "$x_0$" 0). reflexivity.
    - apply (GraphShape.step_input [x] "$y_0$" 1). reflexivity. }
  split; [exact Hb |].
  destruct (graph_equals_returns [0] [1] [x; y] Hb) as [(r & ext & Hrun & _) Hloop].
  - repeat constructor.
  - repeat constructor.
  - discriminate.
  - discriminate.
  - split; [exists r, ext; exact Hrun | exact Hloop].
Defined.

(** ** The second variant: shape and JSON text *)

Lemma dict_heap_ok_snoc (h : list Dict.circuit) (d : Dict.circuit) :
  DictShape.heap_ok h -> DictShape.well_shaped (length h) d = true ->
  DictShape.heap_ok (h ++ [d]).
Proof.
  intros Hok Hd i o Hi.
  apply lookup_app_Some in Hi as [Hi | [Hge Hi]].
  - apply Hok. exact Hi.
  - apply list_lookup_singleton_Some in Hi as [Hi ->].
    replace i with (length h) by lia. exact Hd.
Qed.

Lemma dict_step_keeps_shape (h h' : list Dict.circuit) :
  DictShape.heap_ok h -> DictShape.step h h' -> DictShape.heap_ok h'.
Proof.
  intros Hok Hstep.
  destruct Hstep as [h b r h' Hb Hrun | h c d r h' Hc Hd Hrun
                    | h c d r h' Hc Hd Hrun | h c r h' Hc Hrun].
  - injection Hrun as _ <-. apply dict_heap_ok_snoc; [exact Hok |].
    destruct Hb as [-> | ->]; reflexivity.
  - rewrite dict_or_run in Hrun. injection Hrun as _ <-.
    apply dict_heap_ok_snoc; [exact Hok |]. cbn.
    rewrite (bool_decide_eq_true_2 (c < length h)), (bool_decide_eq_true_2 (d < length h))
      by assumption.
    reflexivity.
  - rewrite dict_and_run in Hrun. injection Hrun as _ <-.
    apply dict_heap_ok_snoc; [exact Hok |]. cbn.
    rewrite (bool_decide_eq_true_2 (c < length h)), (bool_decide_eq_true_2 (d < length h))
      by assumption.
    reflexivity.
  - rewrite dict_rsub_run in Hrun. cbn in Hrun. injection Hrun as _ <-.
    apply dict_heap_ok_snoc; [exact Hok |]. cbn.
    rewrite (bool_decide_eq_true_2 (c < length h)) by assumption.
    reflexivity.
Qed.

Lemma dict_built_ok (h : list Dict.circuit) : DictShape.built h -> DictShape.heap_ok h.
Proof.
  induction 1 as [| h h' _ IH Hstep].
  - intros i d Hi. destruct i; discriminate Hi.
  - exact (dict_step_keeps_shape h h' IH Hstep).
Qed.

(** X16. In every store built with the second variant from bit
    constants [circuit({"bit": b})] by [|], [&] and [1 - _], each
    dictionary has one key, [bit] with a bit, or [or] or [and] with a
    list of two earlier circuits, or [not] with a list of one; every
    further construction keeps the store so. *)
Theorem dict_shape_invariant (h : list Dict.circuit) :
  DictShape.built h ->
  DictShape.heap_ok h /\ (forall h', DictShape.step h h' -> DictShape.heap_ok h').
Proof.
  intros Hb. pose proof (dict_built_ok h Hb) as Hok.
  split; [exact Hok |]. intros h' Hstep. exact (dict_step_keeps_shape h h' Hok Hstep).
Qed.

Lemma dict_shape_invariant_witness :
  let c0 := [("bit", Dict.VInt 0)] in
  let c1 := [("or", Dict.VList [0; 0])] in
  DictShape.built [c0; c1] /\ DictShape.heap_ok [c0; c1].
Proof.
  intros c0 c1.
  assert (DictShape.built [c0; c1]) as Hb.
  { apply (DictShape.built_step [c0]).
    - apply (DictShape.built_step []); [apply DictShape.built_nil |].
      apply (DictShape.step_bit [] 0%Z 0); [left |]; reflexivity.
    - apply (DictShape.step_or [c0] 0 0 1); cbn; [lia | lia | reflexivity]. }
  split; [exact Hb |].
  exact (proj1 (dict_shape_invariant [c0; c1] Hb)).
Defined.

Lemma dumps_stable (h : list Dict.circuit) :
  DictShape.heap_ok h ->
  forall l, l < length h ->
  exists s, forall n (path : list loc) ext, l < n -> Forall (fun p => l < p) path ->
    Json.dumps_fuel n path l (h ++ ext) = (Ok s, h ++ ext).
Proof.
  intros Hok l. induction l as [l IH] using lt_wf_ind. intros Hl.
  destruct (lookup_lt_is_Some_2 h l Hl) as [o Ho].
  pose proof (Hok l o Ho) as Hshape. unfold DictShape.well_shaped in Hshape.
  destruct o as [| [k [z | cs]] [| e o]]; try (cbn in Hshape; discriminate).
  - eexists. intros [| n] path ext Hn Hp; [lia |]. cbn [Json.dumps_fuel]. unfold bind.
    unfold load. rewrite (lookup_app_l_Some _ _ _ _ Ho), (above_fresh l path Hp). reflexivity.
  - destruct cs as [| a [| b [| c cs]]]; try (cbn in Hshape; discriminate).
    + apply andb_true_iff in Hshape as [_ Ha]. apply bool_decide_eq_true_1 in Ha.
      destruct (IH a Ha ltac:(lia)) as [sa Hsa].
      eexists. intros [| n] path ext Hn Hp; [lia |]. cbn [Json.dumps_fuel]. unfold bind.
      unfold load. rewrite (lookup_app_l_Some _ _ _ _ Ho), (above_fresh l path Hp).
      cbn [mapM fst snd]. unfold bind.
      rewrite (Hsa n _ ext) by first [lia | exact (above_child a l path Ha Hp)].
      reflexivity.
    + apply andb_true_iff in Hshape as [Hshape Hb]. apply andb_true_iff in Hshape as [_ Ha].
      apply bool_decide_eq_true_1 in Ha, Hb.
      destruct (IH a Ha ltac:(lia)) as [sa Hsa]. destruct (IH b Hb ltac:(lia)) as [sb Hsb].
      eexists. intros [| n] path ext Hn Hp; [lia |]. cbn [Json.dumps_fuel]. unfold bind.
      unfold load. rewrite (lookup_app_l_Some _ _ _ _ Ho), (above_fresh l path Hp).
      cbn [mapM fst snd]. unfold bind.
      rewrite (Hsa n _ ext) by first [lia | exact (above_child a l path Ha Hp)].
      rewrite (Hsb n _ ext) by first [lia | exact (above_child b l path Hb Hp)].
      reflexivity.
  - destruct cs as [| a [| b [| c cs]]]; cbn in Hshape; discriminate.
Qed.

(** The text of a new dictionary with one key and a list of circuits
    that have texts. *)
Lemma dumps_new (h : list Dict.circuit) (k : string) (cs : list loc) (n : nat) :
  Json.dumps_fuel (S n) [] (length h) (h ++ [[(k, Dict.VList cs)]])
  = (ss <- mapM (Json.dumps_fuel n [length h]) cs ;;
     ret (dict_text [item_text k (list_text ss)]))
      (h ++ [[(k, Dict.VList cs)]]).
Proof.
  cbn [Json.dumps_fuel]. unfold bind at 1. unfold load.
  rewrite list_lookup_middle by reflexivity.
  rewrite (above_fresh (length h) []) by constructor.
  cbn [mapM fst snd]. unfold bind. destruct (mapM _ cs _) as [[ss | e] h']; reflexivity.
Qed.

(** X17. In a store built with the second variant, under an interpreter
    whose recursion limit affords more levels of nesting than the store
    has objects, [json.dumps] returns a text for every circuit and
    changes nothing; the text of [c | d] is [{"or": [C, D]}] for the
    texts [C] of [c] and [D] of [d], that of [c & d] is
    [{"and": [C, D]}], and that of [1 - c] is [{"not": [C]}]. *)
Theorem dumps_composes (i : interpreter) (h : list Dict.circuit) (c d : loc) :
  DictShape.built h -> c < length h -> d < length h ->
  length h < levels i (dumps_calls i) ->
  exists sc sd,
    Json.dumps i c h = (Ok sc, h)
    /\ Json.dumps i d h = (Ok sd, h)
    /\ ((r <- Dict.__or__ c d ;; Json.dumps i r) h).1
       = Ok (dict_text [item_text "or" (list_text [sc; sd])])
    /\ ((r <- Dict.__and__ c d ;; Json.dumps i r) h).1
       = Ok (dict_text [item_text "and" (list_text [sc; sd])])
    /\ ((r <- Dict.__rsub__ c (PyInt 1) ;; Json.dumps i r) h).1
       = Ok (dict_text [item_text "not" (list_text [sc])]).
Proof.
  intros Hb Hc Hd Hn. pose proof (dict_built_ok h Hb) as Hok.
  destruct (dumps_stable h Hok c Hc) as [sc Hsc].
  destruct (dumps_stable h Hok d Hd) as [sd Hsd].
  exists sc, sd. unfold Json.dumps.
  destruct (levels i (dumps_calls i)) as [| n]; [lia |].
  assert (Forall (fun p => c < p) [length h]) as Pc by (constructor; [exact Hc | constructor]).
  assert (Forall (fun p => d < p) [length h]) as Pd by (constructor; [exact Hd | constructor]).
  split; [pose proof (Hsc (S n) [] [] ltac:(lia) ltac:(constructor)) as H0;
          rewrite app_nil_r in H0; exact H0 |].
  split; [pose proof (Hsd (S n) [] [] ltac:(lia) ltac:(constructor)) as H0;
          rewrite app_nil_r in H0; exact H0 |].
  split; [| split].
  - unfold bind at 1. rewrite dict_or_run, dumps_new. cbn [mapM]. unfold bind.
    rewrite (Hsc n _ [_]) by first [lia | exact Pc].
    rewrite (Hsd n _ [_]) by first [lia | exact Pd]. reflexivity.
  - unfold bind at 1. rewrite dict_and_run, dumps_new. cbn [mapM]. unfold bind.
    rewrite (Hsc n _ [_]) by first [lia | exact Pc].
    rewrite (Hsd n _ [_]) by first [lia | exact Pd]. reflexivity.
  - unfold bind at 1. rewrite dict_rsub_run. cbn [isinstance_int ne_one negb orb Z.eqb Pos.eqb].
    rewrite dumps_new. cbn [mapM]. unfold bind.
    rewrite (Hsc n _ [_]) by first [lia | exact Pc]. reflexivity.
Qed.

Lemma dumps_composes_witness :
  let i := {| recursion_limit := 12; in_progress := 5; repr_calls := 3; dumps_calls := 2 |} in
  let c0 := [("bit", Dict.VInt 0)] in
  let c1 := [("bit", Dict.VInt 1)] in
  DictShape.built [c0; c1]
  /\ length [c0; c1] < levels i (dumps_calls i)
  /\ ((r <- Dict.__or__ 0 1 ;; Json.dumps i r) [c0; c1]).1
     = Ok (dict_text [item_text "or" (list_text [dict_text [item_text "bit" "0"];
                                                  dict_text [item_text "bit" "1"]])]).
Proof.
  intros i c0 c1.
  assert (DictShape.built [c0; c1]) as Hb.
  { apply (DictShape.built_step [c0]).
    - apply (DictShape.built_step []); [apply DictShape.built_nil |].
      apply (DictShape.step_bit [] 0%Z 0); [left |]; reflexivity.
    - apply (DictShape.step_bit [c0] 1%Z 1); [right |]; reflexivity. }
  assert (length [c0; c1] < levels i (dumps_calls i)) as Hl by (vm_compute; lia).
  split; [exact Hb |]. split; [exact Hl |].
  destruct (dumps_composes i [c0; c1] 0 1 Hb) as (sc & sd & Hsc & Hsd & Hor & _);
    [cbn; lia | cbn; lia | exact Hl |].
  rewrite Hor. vm_compute in Hsc, Hsd.
  injection Hsc as <-. injection Hsd as <-. reflexivity.
Defined.

(** [k] negations of a dictionary circuit: the store gets [k]
    dictionaries more, and the value cannot be encoded when at most [k]
    levels are left. *)
Lemma dict_nots_deep (k : nat) (h : list Dict.circuit) (c : loc) :
  c < length h ->
  exists r ext,
    nots (S := Dict.heap) k c h = (Ok r, h ++ ext)
    /\ length ext = k /\ r < length (h ++ ext)
    /\ forall n (path : list loc) more, n <= k -> Forall (fun p => r < p) path ->
         Json.dumps_fuel n path r ((h ++ ext) ++ more)
         = (Raise RecursionError, (h ++ ext) ++ more).
Proof.
  intros Hc. induction k as [| k IH].
  - exists c, []. rewrite app_nil_r.
    split; [reflexivity |]. split; [reflexivity |]. split; [exact Hc |].
    intros n path more Hn _. replace n with 0 by lia. reflexivity.
  - destruct IH as (r & ext & Hrun & Hlen & Hr & Hdeep).
    exists (length (h ++ ext)), (ext ++ [[("not", Dict.VList [r])]]).
    rewrite (app_assoc h ext).
    split.
    { cbn [nots]. unfold bind. rewrite Hrun. cbn [one_minus Dict.ops].
      rewrite dict_rsub_run. reflexivity. }
    split; [rewrite length_app, Hlen; cbn; lia |].
    split; [rewrite (length_app (h ++ ext)); cbn; lia |].
    intros [| n] path more Hn Hp; [reflexivity |].
    cbn [Json.dumps_fuel]. unfold bind at 1. unfold load.
    rewrite <- (app_assoc (h ++ ext)). cbn [app].
    rewrite list_lookup_middle by reflexivity.
    rewrite (above_fresh _ path Hp). cbn [mapM fst snd]. unfold bind.
    rewrite (Hdeep n _ (_ :: more)) by
      first [lia | exact (above_child r (length (h ++ ext)) path Hr Hp)].
    reflexivity.
Qed.

(** X19. Whatever the recursion limit, a circuit of the second variant
    nested deeper than it affords cannot be encoded: in a store built
    from bit constants by the operators, [k] negations of a circuit are
    built without an exception, [k] new dictionaries, and when the
    interpreter affords at most [k] levels [json.dumps] of the result
    raises [RecursionError], not the [ValueError] of a circular
    reference, and changes nothing. *)
Theorem dumps_depth_limit (i : interpreter) (k : nat) (h : list Dict.circuit) (c : loc) :
  DictShape.built h -> c < length h -> levels i (dumps_calls i) <= k ->
  exists r ext,
    nots (S := Dict.heap) k c h = (Ok r, h ++ ext)
    /\ length ext = k
    /\ Json.dumps i r (h ++ ext) = (Raise RecursionError, h ++ ext).
Proof.
  intros _ Hc Hk.
  destruct (dict_nots_deep k h c Hc) as (r & ext & Hrun & Hlen & _ & Hdeep).
  exists r, ext. split; [exact Hrun |]. split; [exact Hlen |].
  pose proof (Hdeep (levels i (dumps_calls i)) [] [] Hk ltac:(constructor)) as H0.
  rewrite app_nil_r in H0. exact H0.
Qed.

Lemma dumps_depth_limit_witness :
  let i := {| recursion_limit := 12; in_progress := 5; repr_calls := 3; dumps_calls := 2 |} in
  let c0 := [("bit", Dict.VInt 0)] in
  (DictShape.built [c0] /\ 0 < length [c0] /\ levels i (dumps_calls i) <= 3)
  /\ ((r <- nots (S := Dict.heap) (V := loc) 3 0 ;; Json.dumps i r) [c0]).1
     = Raise RecursionError
  /\ ((r <- nots (S := Dict.heap) (V := loc) 2 0 ;; Json.dumps i r) [c0]).1
     = Ok (dict_text [item_text "not" (list_text
             [dict_text [item_text "not" (list_text [dict_text [item_text "bit" "0"]])]])]).
Proof.
  intros i c0.
  assert (0 < length [c0]) as Hc by (cbn; lia).
  assert (levels i (dumps_calls i) <= 3) as Hk by (vm_compute; lia).
  assert (DictShape.built [c0]) as Hb.
  { apply (DictShape.built_step []); [apply DictShape.built_nil |].
    apply (DictShape.step_bit [] 0%Z 0); [left |]; reflexivity. }
  split; [split; [exact Hb | split; [exact Hc | exact Hk]] |].
  split; [| vm_compute; reflexivity].
  destruct (dumps_depth_limit i 3 [c0] 0 Hb Hc Hk) as (r & ext & Hrun & _ & Hraise).
  unfold bind. rewrite Hrun, Hraise. reflexivity.
Defined.
